(** * archipack_2d: 2d lines, circles and arcs, and the offset join

    A shallow embedding of [archipack/archipack_2d.py] (classes [Line],
    [Circle], [Arc]).  Python floats are modelled as real numbers, so the
    development speaks about the exact geometric formulas the code writes.
    The two ways the Python functions can raise on these inputs are kept:
    float division by zero ([ZeroDivisionError]) and [math.sqrt] of a
    negative number ([ValueError]).  [print] calls have no effect on the
    state and are left out.

    mathutils conventions used by the source (Blender 2.7x API):
    - [Vector * Vector] is the dot product;
    - [Matrix([[a, b], [c, d]]) * Vector((x, y))] is [(a x + b y, c x + d y)];
    - [Vector.length] is the euclidean norm, [Vector.normalized()] divides by
      it and returns the zero vector for a zero vector. *)

From Stdlib Require Import Reals Lra Lia.
Open Scope R_scope.

(** ** Python exceptions and a small error monad *)

Inductive exn : Type :=
| ZeroDivisionError
| ValueError.

Inductive Exc (A : Type) : Type :=
| Ok : A -> Exc A
| Err : exn -> Exc A.
Arguments Ok {A} _.
Arguments Err {A} _.

Definition bind {A B : Type} (m : Exc A) (f : A -> Exc B) : Exc B :=
  match m with
  | Ok a => f a
  | Err e => Err e
  end.

Notation "'let*' x ':=' m 'in' f" := (bind m (fun x => f))
  (at level 200, x name, m at level 100, f at level 200).

(** Python [x / y] on floats. *)
Definition pdiv (x y : R) : Exc R :=
  if Req_EM_T y 0 then Err ZeroDivisionError else Ok (x / y).

(** Python [math.sqrt]. *)
Definition psqrt (x : R) : Exc R :=
  if Rlt_dec x 0 then Err ValueError else Ok (sqrt x).

(** Python [math.atan2] (signed zeros are not modelled). *)
Definition atan2 (y x : R) : R :=
  if Rlt_dec 0 x then atan (y / x)
  else if Rlt_dec x 0 then
    (if Rle_dec 0 y then atan (y / x) + PI else atan (y / x) - PI)
  else if Rlt_dec 0 y then PI / 2
  else if Rlt_dec y 0 then - (PI / 2)
  else 0.

(** ** mathutils [Vector] in two dimensions *)

Record V2 : Type := mkV2 { x : R; y : R }.

Definition vadd (a b : V2) : V2 := mkV2 (x a + x b) (y a + y b).
Definition vsub (a b : V2) : V2 := mkV2 (x a - x b) (y a - y b).
Definition vscale (k : R) (a : V2) : V2 := mkV2 (k * x a) (k * y a).
Definition vneg (a : V2) : V2 := mkV2 (- x a) (- y a).
Definition dot (a b : V2) : R := x a * x b + y a * y b.
Definition vlength (a : V2) : R := sqrt (dot a a).
Definition normalized (a : V2) : V2 :=
  if Req_EM_T (vlength a) 0 then mkV2 0 0
  else mkV2 (x a / vlength a) (y a / vlength a).
Definition vzero : V2 := mkV2 0 0.

Infix "+v" := vadd (at level 50, left associativity).
Infix "-v" := vsub (at level 50, left associativity).
Infix "*v" := vscale (at level 40, left associativity).

(** ** [Line]: origin [p], direction and size [v] *)

Record Line : Type := mkLine { lp : V2; lv : V2 }.

Definition line_p0 (l : Line) : V2 := lp l.
Definition line_p1 (l : Line) : V2 := lp l +v lv l.

(** [p0.setter]: keeps [p1], moves [p]. *)
Definition line_set_p0 (l : Line) (p0 : V2) : Line :=
  let p1 := line_p1 l in mkLine p0 (p1 -v p0).

(** [p1.setter]: keeps [p]. *)
Definition line_set_p1 (l : Line) (p1 : V2) : Line :=
  mkLine (lp l) (p1 -v lp l).

Definition line_length (l : Line) : R := vlength (lv l).
Definition line_angle (l : Line) : R := atan2 (y (lv l)) (x (lv l)).
Definition cross_z (l : Line) : V2 := mkV2 (y (lv l)) (- x (lv l)).

Definition signed_angle (u v : V2) : R :=
  atan2 (x u * y v - y u * x v) (x u * x v + y u * y v).

Definition line_lerp (l : Line) (t : R) : V2 := lp l +v (t *v lv l).

(** [Line.intersect]; the source returns the integer [0] as point when the
    lines are parallel, modelled by the zero vector. *)
Definition line_intersect (self line : Line) : Exc (bool * V2 * R) :=
  let c := cross_z line in
  let d := dot (lv self) c in
  if Req_EM_T d 0 then Ok (false, vzero, 0)
  else
    let* t := pdiv (dot c (lp line -v lp self)) d in
    Ok (true, line_lerp self t, t).

(** [Line.point_sur_segment]: (t in (0,1), lateral distance, t). *)
Definition line_point_sur_segment (self : Line) (pt : V2) : Exc (bool * R * R) :=
  let dp := pt -v lp self in
  let dl := line_length self in
  let* d := pdiv (x (lv self) * y dp - y (lv self) * x dp) dl in
  let* t := pdiv (dot (lv self) dp) (dl * dl) in
  Ok (if Rlt_dec 0 t then (if Rlt_dec t 1 then true else false) else false,
      d, t).

Definition line_offset (self : Line) (offset : R) : Line :=
  mkLine (lp self +v (offset *v normalized (cross_z self))) (lv self).

(** ** [Circle] *)

Record Circle : Type := mkCircle { cc : V2; cr : R; cr2 : R }.

Definition circle (c : V2) (radius : R) : Circle := mkCircle c radius (radius * radius).

(** [Circle.intersect]; note the source's [t = -B / 2 * A] in the tangent
    case, which Python reads as [((-B) / 2) * A].  The source's single test
    [A <= 0.0000001 or d < 0] is written as two branches with one body. *)
Definition circle_intersect (self : Circle) (line : Line) : Exc (bool * V2 * R) :=
  let v := lp line -v cc self in
  let A := dot (lv line) (lv line) in
  let B := dot (2 *v v) (lv line) in
  let C := dot v v - cr2 self in
  let d := B * B - 4 * A * C in
  if Rle_dec A (1 / 10000000) then
    let* res := line_point_sur_segment line (cc self) in
    let t := snd res in
    Ok (false, line_lerp line t, t)
  else if Rlt_dec d 0 then
    let* res := line_point_sur_segment line (cc self) in
    let t := snd res in
    Ok (false, line_lerp line t, t)
  else if Req_EM_T d 0 then
    let t := (- B / 2) * A in
    Ok (true, line_lerp line t, t)
  else
    let AA := 2 * A in
    let* dsq := psqrt d in
    let* t0 := pdiv (- B + dsq) AA in
    let* t1 := pdiv (- B - dsq) AA in
    if Rlt_dec (Rabs t0) (Rabs t1) then Ok (true, line_lerp line t0, t0)
    else Ok (true, line_lerp line t1, t1).

(** ** [Arc]: a [Circle] with start angle [a0] and signed sweep [da] *)

Record Arc : Type := mkArc { ac : V2; ar : R; ar2 : R; aa0 : R; ada : R }.

(** [Arc.__init__] (through [Circle.__init__], which caches [r2]). *)
Definition arc (c : V2) (radius a0 da : R) : Arc :=
  mkArc c radius (radius * radius) a0 da.

Definition arc_lerp (a : Arc) (t : R) : V2 :=
  let ang := aa0 a + t * ada a in
  ac a +v mkV2 (ar a * cos ang) (ar a * sin ang).

Definition arc_p0 (a : Arc) : V2 := arc_lerp a 0.
Definition arc_p1 (a : Arc) : V2 := arc_lerp a 1.

Definition ccw (a : Arc) : bool := if Rlt_dec 0 (ada a) then true else false.

Definition arc_length (a : Arc) : R := ar a * Rabs (ada a).

(** Field updates, as the source's attribute assignments. *)
Definition arc_set_c (a : Arc) (c : V2) : Arc := mkArc c (ar a) (ar2 a) (aa0 a) (ada a).
Definition arc_set_r (a : Arc) (r : R) : Arc := mkArc (ac a) r (ar2 a) (aa0 a) (ada a).
Definition arc_set_r2 (a : Arc) (r2 : R) : Arc := mkArc (ac a) (ar a) r2 (aa0 a) (ada a).
Definition arc_set_a0 (a : Arc) (a0 : R) : Arc := mkArc (ac a) (ar a) (ar2 a) a0 (ada a).
Definition arc_set_da (a : Arc) (da : R) : Arc := mkArc (ac a) (ar a) (ar2 a) (aa0 a) da.

(** mathutils 2x2 [Matrix], given by rows. *)
Record M2 : Type := mkM2 { m11 : R; m12 : R; m21 : R; m22 : R }.

Definition mmul (m : M2) (w : V2) : V2 :=
  mkV2 (m11 m * x w + m12 m * y w) (m21 m * x w + m22 m * y w).

(** [Arc.rot_scale_matrix]. *)
Definition rot_scale_matrix (u v : V2) : Exc (R * M2) :=
  let a := signed_angle u v in
  let* scale := pdiv (vlength v) (vlength u) in
  let ca := scale * cos a in
  let sa := scale * sin a in
  Ok (scale, mkM2 ca sa (- sa) ca).

(** [Arc.p0.setter].  Each assignment of the source is one step; the last
    one reads [self.p0] in the state reached after the first three. *)
Definition arc_set_p0 (self : Arc) (p0 : V2) : Exc Arc :=
  let u := arc_p0 self -v arc_p1 self in
  let v := p0 -v arc_p1 self in
  let* sm := rot_scale_matrix u v in
  let scale := fst sm in
  let tM := snd sm in
  let s1 := arc_set_c self (arc_p1 self +v mmul tM (ac self -v arc_p1 self)) in
  let s2 := arc_set_r s1 (ar s1 * scale) in
  let s3 := arc_set_r2 s2 (ar s2 * ar s2) in
  let dp := arc_p0 s3 -v ac s3 in
  Ok (arc_set_a0 s3 (atan2 (y dp) (x dp))).

(** [Arc.p1.setter]. *)
Definition arc_set_p1 (self : Arc) (p1 : V2) : Exc Arc :=
  let u := arc_p1 self -v arc_p0 self in
  let v := p1 -v arc_p0 self in
  let* sm := rot_scale_matrix u v in
  let scale := fst sm in
  let tM := snd sm in
  let s1 := arc_set_c self (arc_p0 self +v mmul tM (ac self -v arc_p0 self)) in
  let s2 := arc_set_r s1 (ar s1 * scale) in
  let s3 := arc_set_r2 s2 (ar s2 * ar s2) in
  let dp := arc_p0 s3 -v ac s3 in
  Ok (arc_set_a0 s3 (atan2 (y dp) (x dp))).

(** [Arc.offset]. *)
Definition arc_offset (self : Arc) (offset : R) : Arc :=
  let radius := if Rlt_dec 0 (ada self) then ar self + offset else ar self - offset in
  arc (ac self) radius (aa0 self) (ada self).

(** ** The offset join *)

(** A segment of a curve chain: the dynamic type tested by [make_offset]
    through [type(last).__name__]. *)
Inductive Seg : Type :=
| SLine (l : Line)
| SArc (a : Arc).

(** The winding correction block written out in both mixed branches of
    [make_offset] (lines 339-347 and 678-686 of the source). *)
Definition fix_winding (is_ccw : bool) (da : R) : R :=
  if is_ccw then (if Rlt_dec da 0 then 2 * PI + da else da)
  else if Rlt_dec 0 da then 2 * PI - da
  else da.

(** [Line.make_offset]: returns the new state of [last] and the offset line. *)
Definition line_make_offset (self : Line) (offset : R) (last : option Seg)
  : Exc (option Seg * Line) :=
  let line := line_offset self offset in
  match last with
  | None => Ok (None, line)
  | Some (SArc last) =>
      let* res := line_point_sur_segment line (ac last) in
      let d := snd (fst res) in
      let t := snd res in
      let c := ar last * ar last - d * d in
      let* p0 :=
        if Rle_dec c 0 then Ok (line_lerp line t)
        else
          let* sc := psqrt c in
          if Rlt_dec 0 t then Ok (line_lerp line t -v (sc *v normalized (lv line)))
          else Ok (line_lerp line t +v (sc *v normalized (lv line))) in
      let u := arc_p0 last -v ac last in
      let v := p0 -v ac last in
      let da := fix_winding (ccw last) (signed_angle u v) in
      Ok (Some (SArc (arc_set_da last da)), line_set_p0 line p0)
  | Some (SLine last) =>
      let c := cross_z line in
      let d := dot (lv last) c in
      if Req_EM_T d 0 then Ok (Some (SLine last), line)
      else
        let v := lp line -v lp last in
        let* t := pdiv (dot c v) d in
        let c2 := cross_z last in
        let* u := pdiv (dot c2 v) d in
        if Rlt_dec 1 u then Ok (Some (SLine last), line)
        else if Rlt_dec t 0 then Ok (Some (SLine last), line)
        else
          let p := line_lerp last t in
          Ok (Some (SLine (line_set_p1 last p)), line_set_p0 line p)
  end.

(** mathutils [Vector / float]. *)
Definition vdiv (w : V2) (k : R) : Exc V2 :=
  if Req_EM_T k 0 then Err ZeroDivisionError else Ok (mkV2 (x w / k) (y w / k)).

(** [Arc.make_offset]: returns the new state of [last] and the offset arc. *)
Definition arc_make_offset (self : Arc) (offset : R) (last : option Seg)
  : Exc (option Seg * Arc) :=
  let line := arc_offset self offset in
  match last with
  | None => Ok (None, line)
  | Some (SLine last) =>
      let* res := line_point_sur_segment last (ac line) in
      let d := snd (fst res) in
      let t := snd res in
      let c := ar2 line - d * d in
      let* p0 :=
        if Rle_dec c 0 then Ok (line_lerp last t)
        else
          let* sc := psqrt c in
          if Rlt_dec 1 t then Ok (line_lerp last t -v (sc *v normalized (lv last)))
          else Ok (line_lerp last t +v (sc *v normalized (lv last))) in
      let u := p0 -v ac line in
      let v := arc_p1 line -v ac line in
      let line1 := arc_set_a0 line (atan2 (y u) (x u)) in
      let da := fix_winding (ccw self) (signed_angle u v) in
      Ok (Some (SLine (line_set_p1 last p0)), arc_set_da line1 da)
  | Some (SArc last) =>
      let dc := ac line -v ac last in
      let tmp := mkLine (ac last) dc in
      let* res := line_point_sur_segment tmp (arc_p0 self) in
      let d := snd (fst res) in
      let r := ar line + ar last in
      let dist := vlength dc in
      if Rlt_dec r dist then Ok (Some (SArc last), line)
      else if Rlt_dec dist (Rabs (ar last - ar self)) then Ok (Some (SArc last), line)
      else
        let* p0 :=
          if Req_EM_T dist r then
            let* w := vdiv ((- ar last) *v dc) r in
            Ok (w +v ac self)
          else
            let* a := pdiv (ar2 last - ar2 line + dist * dist) (2 * dist) in
            let* w := vdiv (a *v dc) dist in
            let v2 := ac last +v w in
            let* h := psqrt (ar2 last - a * a) in
            let* k := pdiv h dist in
            let rr := k *v mkV2 (- y dc) (x dc) in
            let p0 := v2 +v rr in
            let* res1 := line_point_sur_segment tmp p0 in
            let d1 := snd (fst res1) in
            if Rlt_dec 0 d1 then
              (if Rlt_dec d 0 then Ok (v2 -v rr) else Ok p0)
            else if Rlt_dec 0 d then Ok (v2 -v rr)
            else Ok p0 in
        let u := arc_p0 last -v ac last in
        let v := p0 -v ac last in
        let last1 := arc_set_da last (signed_angle u v) in
        let u2 := v in
        let v2 := arc_p1 line -v ac line in
        let line1 := arc_set_a0 line (atan2 (y u2) (x u2)) in
        Ok (Some (SArc last1), arc_set_da line1 (signed_angle u2 v2))
  end.

(** ** Further members of [Line] *)

Definition line_angle_normal (l : Line) : R := atan2 (- x (lv l)) (y (lv l)).

Definition line_reversed (l : Line) : Line := mkLine (lp l) (vneg (lv l)).
Definition line_oposite (l : Line) : Line := mkLine (lp l +v lv l) (vneg (lv l)).

Definition line_normal (l : Line) (t : R) : Line := mkLine (line_lerp l t) (cross_z l).

Definition line_sized_normal (l : Line) (t size : R) : Line :=
  mkLine (line_lerp l t) (size *v normalized (cross_z l)).

(** [Line.rotate]: [x, y] are read before [v] is updated. *)
Definition line_rotate (self : Line) (da : R) : Line :=
  let cs := cos da in
  let sn := sin da in
  let x0 := x (lv self) in
  let y0 := y (lv self) in
  mkLine (lp self) (mkV2 (x0 * cs - y0 * sn) (x0 * sn + y0 * cs)).

Definition line_scale (self : Line) (length : R) : Line :=
  mkLine (lp self) (length *v normalized (lv self)).

(** Python [round(r, 0)] on a float: the nearest integer, ties to even. *)
Definition py_round (r : R) : R :=
  let f := Int_part r in
  let fr := r - IZR f in
  if Rlt_dec fr (1 / 2) then IZR f
  else if Rlt_dec (1 / 2) fr then IZR (f + 1)
  else if Z.even f then IZR f else IZR (f + 1).

(** Python [max(a, b)]: [a] unless [b] is larger. *)
Definition py_max (a b : R) : R := if Rlt_dec a b then b else a.

(** Python [int] on a float: truncation toward zero. *)
Definition py_int (r : R) : Z :=
  if Rle_dec 0 r then Int_part r else (- Int_part (- r))%Z.

(** [Line.steps]. *)
Definition line_steps (self : Line) (len : R) : Exc (R * Z) :=
  let* q := pdiv (line_length self) len in
  let steps := py_max 1 (py_round q) in
  let* dt := pdiv 1 steps in
  Ok (dt, py_int steps).

(** ** Further members of [Arc] *)

Definition arc_normal (self : Arc) (t : R) : Line :=
  let p := arc_lerp self t in
  if Rlt_dec (ada self) 0 then mkLine p (ac self -v p) else mkLine p (p -v ac self).

(** [Arc.steps]. *)
Definition arc_steps (self : Arc) (length : R) : Exc (R * Z) :=
  let* q := pdiv (arc_length self) length in
  let steps := py_max 1 (py_round q) in
  let* dt := pdiv 1 steps in
  Ok (dt, py_int steps).

(** [Arc.steps_by_angle]. *)
Definition arc_steps_by_angle (self : Arc) (step_angle : R) : Exc (R * Z) :=
  let* q := pdiv (Rabs (ada self)) step_angle in
  let steps := py_max 1 (py_round q) in
  let* dt := pdiv 1 steps in
  Ok (dt, py_int steps).

(** [Arc.tangeant]; the source's [-length * ca] is [(-length) * ca]. *)
Definition arc_tangeant (self : Arc) (t length : R) : Line :=
  let a := aa0 self + t * ada self in
  let ca := cos a in
  let sa := sin a in
  let p := ac self +v mkV2 (ar self * ca) (ar self * sa) in
  let v := mkV2 (length * sa) (- length * ca) in
  let v := if Rlt_dec 0 (ada self) then vneg v else v in
  mkLine p v.

Definition arc_tangeant_unit_vector (self : Arc) (t : R) : V2 :=
  let a := aa0 self + t * ada self in
  let ca := cos a in
  let sa := sin a in
  let v := mkV2 sa (- ca) in
  if Rlt_dec 0 (ada self) then vneg v else v.

(** [Arc.point_sur_segment]: (t in (0,1), distance to the circle, t). *)
Definition arc_point_sur_segment (self : Arc) (pt : V2) : Exc (bool * R * R) :=
  let dp := pt -v ac self in
  let d := vlength dp - ar self in
  let a := atan2 (y dp) (x dp) in
  let* t := pdiv (a - aa0 self) (ada self) in
  Ok (if Rlt_dec 0 t then (if Rlt_dec t 1 then true else false) else false, d, t).

(** [Arc.rotate]. *)
Definition arc_rotate (self : Arc) (da : R) : Arc :=
  let cs := cos da in
  let sn := sin da in
  let rM := mkM2 cs sn (- sn) cs in
  arc_set_c self (mmul rM (arc_p0 self -v ac self)).

(** [Line.tangeant]: an [Arc] whose start angle is the line's normal angle. *)
Definition line_tangeant (self : Line) (t da radius : R) : Arc :=
  let p := line_lerp self t in
  let c := if Rlt_dec da 0 then p +v (radius *v normalized (cross_z self))
           else p -v (radius *v normalized (cross_z self)) in
  arc c radius (line_angle_normal self) da.

(** ** Members shared through duck typing: [normal], [length] *)

Definition seg_normal (s : Seg) (t : R) : Line :=
  match s with
  | SLine l => line_normal l t
  | SArc a => arc_normal a t
  end.

Definition seg_length (s : Seg) : R :=
  match s with
  | SLine l => line_length l
  | SArc a => arc_length a
  end.

(** [Projection.proj_xy]; [min(1, max(-1, q))] has the value of
    [Rmin 1 (Rmax (-1) q)], and the clamp keeps [acos] in its domain. *)
Definition proj_xy (self : Seg) (t : R) (next : option Seg) : Exc (V2 * R) :=
  match next with
  | None => Ok (normalized (lv (seg_normal self t)), 1)
  | Some nx =>
      let v0 := normalized (lv (seg_normal self 1)) in
      let v1 := normalized (lv (seg_normal nx 0)) in
      let direction := v0 +v v1 in
      let adj := dot (seg_length self *v v0) (seg_length nx *v v1) in
      let hyp := seg_length self * seg_length nx in
      let* q := pdiv adj hyp in
      let c := Rmin 1 (Rmax (-1) q) in
      let* size := pdiv 1 (cos (0.5 * acos c)) in
      Ok (normalized direction, size)
  end.

(** ** [Line3d] *)

Record V3 : Type := mkV3 { x3 : R; y3 : R; z3 : R }.

Definition vadd3 (a b : V3) : V3 := mkV3 (x3 a + x3 b) (y3 a + y3 b) (z3 a + z3 b).
Definition vscale3 (k : R) (a : V3) : V3 := mkV3 (k * x3 a) (k * y3 a) (k * z3 a).
Definition vcross3 (a b : V3) : V3 :=
  mkV3 (y3 a * z3 b - z3 a * y3 b) (z3 a * x3 b - x3 a * z3 b) (x3 a * y3 b - y3 a * x3 b).
Definition vlength3 (a : V3) : R := sqrt (x3 a * x3 a + y3 a * y3 a + z3 a * z3 a).
Definition normalized3 (a : V3) : V3 :=
  if Req_EM_T (vlength3 a) 0 then mkV3 0 0 0
  else mkV3 (x3 a / vlength3 a) (y3 a / vlength3 a) (z3 a / vlength3 a).

Record Line3d : Type := mkLine3d { lp3 : V3; lv3 : V3; z_axis : V3 }.

(** [Line3d.__init__(p, v, z_axis=None)]. *)
Definition line3d (p v : V3) (z_axis : option V3) : Line3d :=
  mkLine3d p v (match z_axis with Some z => z | None => mkV3 0 0 1 end).

Definition line3d_cross (l : Line3d) : V3 := vcross3 (lv3 l) (z_axis l).

(** [Line3d.offset]: the new line is built without [z_axis]. *)
Definition line3d_offset (l : Line3d) (offset : R) : Line3d :=
  line3d (vadd3 (lp3 l) (vscale3 offset (normalized3 (line3d_cross l)))) (lv3 l) None.

(** The [xy] part of a 3d line, as [Vector.to_2d]. *)
Definition line3d_to_2d (l : Line3d) : Line :=
  mkLine (mkV2 (x3 (lp3 l)) (y3 (lp3 l))) (mkV2 (x3 (lv3 l)) (y3 (lv3 l))).

(** * Proofs *)

(** ** Evaluation helpers *)

Lemma v2_eq (a b c d : R) : a = c -> b = d -> mkV2 a b = mkV2 c d.
Proof. intros -> ->; reflexivity. Qed.

Lemma normalized_unit (a b : R) :
  a * a + b * b = 1 -> normalized (mkV2 a b) = mkV2 a b.
Proof.
  intros H. unfold normalized, vlength, dot; cbn [x y].
  rewrite H, sqrt_1.
  destruct (Req_EM_T 1 0) as [E|_]; [lra|].
  apply v2_eq; field.
Qed.

Lemma bind_Ok {A B : Type} (a : A) (f : A -> Exc B) : bind (Ok a) f = f a.
Proof. reflexivity. Qed.

Lemma pdiv_nz (a b : R) : b <> 0 -> pdiv a b = Ok (a / b).
Proof. intros H. unfold pdiv. destruct (Req_EM_T b 0); [contradiction|reflexivity]. Qed.

Lemma psqrt_nn (a : R) : 0 <= a -> psqrt a = Ok (sqrt a).
Proof. intros H. unfold psqrt. destruct (Rlt_dec a 0); [lra|reflexivity]. Qed.

(** Resolve the comparisons of the model on concrete numbers. *)
Ltac refute H :=
  solve [exfalso; lra | exfalso; field_simplify in H; lra].

Ltac decide_cmp :=
  repeat match goal with
  | |- context [Rlt_dec ?a ?b] =>
      let H := fresh "H" in
      destruct (Rlt_dec a b) as [H|H]; [try refute H | try refute H]
  | |- context [Rle_dec ?a ?b] =>
      let H := fresh "H" in
      destruct (Rle_dec a b) as [H|H]; [try refute H | try refute H]
  | |- context [Req_EM_T ?a ?b] =>
      let H := fresh "H" in
      destruct (Req_EM_T a b) as [H|H]; [try refute H | try refute H]
  end.

(** Close a goal [False] from one contradictory real hypothesis. *)
Ltac refute_hyp :=
  match goal with
  | H : _ |- False => refute H
  end.

(** Split an equality of model values into equalities of reals. *)
Ltac simpl_model :=
  unfold vadd, vsub, vscale, vneg in *; cbn [x y lp lv cc cr cr2 ac ar ar2 aa0 ada] in *.

Ltac struct_eq :=
  simpl_model;
  repeat match goal with
  | |- Ok _ = Ok _ => f_equal
  | |- (_, _) = (_, _) => f_equal
  | |- Some _ = Some _ => f_equal
  | |- SLine _ = SLine _ => f_equal
  | |- SArc _ = SArc _ => f_equal
  | |- mkLine _ _ = mkLine _ _ => f_equal
  | |- mkArc _ _ _ _ _ = mkArc _ _ _ _ _ => f_equal
  | |- mkV2 _ _ = mkV2 _ _ => f_equal
  end.

Lemma L_corner_eval :
  line_make_offset (mkLine (mkV2 0 0) (mkV2 1 0)) 1 None
    = Ok (None, mkLine (mkV2 0 (-1)) (mkV2 1 0)) /\
  line_make_offset (mkLine (mkV2 1 0) (mkV2 0 1)) 1
    (Some (SLine (mkLine (mkV2 0 (-1)) (mkV2 1 0))))
    = Ok (Some (SLine (mkLine (mkV2 0 (-1)) (mkV2 2 0))),
          mkLine (mkV2 2 (-1)) (mkV2 0 2)).
Proof.
  split.
  - unfold line_make_offset, line_offset, cross_z; cbn [x y lp lv].
    rewrite normalized_unit by lra.
    unfold vadd, vscale; cbn [x y]. do 3 f_equal; apply v2_eq; lra.
  - unfold line_make_offset, line_offset, cross_z; cbn [x y lp lv].
    rewrite normalized_unit by lra.
    unfold vadd, vsub, vscale, dot, pdiv, line_lerp, line_set_p0, line_set_p1, line_p1;
      cbn [x y lp lv].
    decide_cmp.
    cbn [bind fst snd]. decide_cmp.
    struct_eq; field.
Qed.

(** ** Line / line join *)

Lemma cross_z_offset (l : Line) (o : R) : cross_z (line_offset l o) = cross_z l.
Proof. reflexivity. Qed.

(** C3 (amended).  For non-parallel lines, with [t] the parameter of the
    intersection on [previous] and [u] its parameter on the new offset line,
    [Line.make_offset] leaves both unjoined exactly when [u > 1] or [t < 0],
    and otherwise moves [previous.p1] and the new line's [p0] to the
    intersection point. *)
Theorem line_line_join_rule (self last : Line) (o : R) :
  let line := line_offset self o in
  dot (lv last) (cross_z line) <> 0 ->
  exists t u,
    line_lerp last t = line_lerp line u /\
    ((1 < u \/ t < 0) ->
       line_make_offset self o (Some (SLine last)) = Ok (Some (SLine last), line)) /\
    (u <= 1 -> 0 <= t ->
       exists last' line',
         line_make_offset self o (Some (SLine last)) = Ok (Some (SLine last'), line') /\
         line_p1 last' = line_lerp last t /\ line_p0 line' = line_lerp last t).
Proof.
  intros line Hd.
  set (v := lp line -v lp last).
  exists (dot (cross_z line) v / dot (lv last) (cross_z line)),
         (dot (cross_z last) v / dot (lv last) (cross_z line)).
  split; [|split].
  - unfold line_lerp, v; struct_eq;
      unfold dot, cross_z in *; cbn [x y] in *; field; exact Hd.
  - intros Hrej. unfold line_make_offset; fold line.
    destruct (Req_EM_T (dot (lv last) (cross_z line)) 0) as [E|_]; [contradiction|].
    fold v. rewrite !pdiv_nz by exact Hd. cbn [bind fst snd].
    destruct (Rlt_dec 1 _) as [H1|H1]; [reflexivity|].
    destruct (Rlt_dec _ 0) as [H2|H2]; [reflexivity|].
    exfalso; lra.
  - intros Hu Ht. unfold line_make_offset; fold line.
    destruct (Req_EM_T (dot (lv last) (cross_z line)) 0) as [E|_]; [contradiction|].
    fold v. rewrite !pdiv_nz by exact Hd. cbn [bind fst snd].
    destruct (Rlt_dec 1 _) as [H1|H1]; [exfalso; lra|].
    destruct (Rlt_dec _ 0) as [H2|H2]; [exfalso; lra|].
    eexists; eexists; split; [reflexivity|].
    split; [|reflexivity].
    unfold line_p1, line_set_p1, line_lerp; cbn [lp lv]; struct_eq; ring.
Qed.

Lemma line_line_join_rule_witness :
  dot (lv (mkLine (mkV2 0 0) (mkV2 1 0)))
      (cross_z (line_offset (mkLine (mkV2 0 0) (mkV2 0 1)) 0)) <> 0 /\
  exists t u,
    line_lerp (mkLine (mkV2 0 0) (mkV2 1 0)) t
      = line_lerp (line_offset (mkLine (mkV2 0 0) (mkV2 0 1)) 0) u /\
    ((1 < u \/ t < 0) ->
       line_make_offset (mkLine (mkV2 0 0) (mkV2 0 1)) 0
         (Some (SLine (mkLine (mkV2 0 0) (mkV2 1 0))))
       = Ok (Some (SLine (mkLine (mkV2 0 0) (mkV2 1 0))),
             line_offset (mkLine (mkV2 0 0) (mkV2 0 1)) 0)) /\
    (u <= 1 -> 0 <= t ->
       exists last' line',
         line_make_offset (mkLine (mkV2 0 0) (mkV2 0 1)) 0
           (Some (SLine (mkLine (mkV2 0 0) (mkV2 1 0))))
         = Ok (Some (SLine last'), line') /\
         line_p1 last' = line_lerp (mkLine (mkV2 0 0) (mkV2 1 0)) t /\
         line_p0 line' = line_lerp (mkLine (mkV2 0 0) (mkV2 1 0)) t).
Proof.
  assert (Hd : dot (lv (mkLine (mkV2 0 0) (mkV2 1 0)))
      (cross_z (line_offset (mkLine (mkV2 0 0) (mkV2 0 1)) 0)) <> 0).
  { unfold dot, line_offset, cross_z; cbn [x y lp lv]; lra. }
  split; [exact Hd|].
  exact (line_line_join_rule (mkLine (mkV2 0 0) (mkV2 0 1))
           (mkLine (mkV2 0 0) (mkV2 1 0)) 0 Hd).
Defined.

(** C3 counterexample.  previous = Line((0,0),(1,0)), new = Line((2,-1),(0,2))
    offset by 0: the lines meet at (2,0), parameter 2 on previous (beyond its
    end) and 1/2 on the new line; the code still joins there. *)
Lemma line_line_join_rule_counterexample :
  line_lerp (mkLine (mkV2 0 0) (mkV2 1 0)) 2
    = line_lerp (line_offset (mkLine (mkV2 2 (-1)) (mkV2 0 2)) 0) (1 / 2) /\
  line_make_offset (mkLine (mkV2 2 (-1)) (mkV2 0 2)) 0
    (Some (SLine (mkLine (mkV2 0 0) (mkV2 1 0))))
  <> Ok (Some (SLine (mkLine (mkV2 0 0) (mkV2 1 0))),
         line_offset (mkLine (mkV2 2 (-1)) (mkV2 0 2)) 0).
Proof.
  split.
  - unfold line_lerp, line_offset; struct_eq; field.
  - unfold line_make_offset, line_offset, cross_z, dot, line_lerp,
      line_set_p0, line_set_p1, line_p1.
    simpl_model. decide_cmp. cbn [bind fst snd]. rewrite !pdiv_nz by lra. cbn [bind fst snd].
    decide_cmp.
    intros E. injection E. intros. refute_hyp.
Qed.

(** ** The L-corner scenario *)

(** C5 (amended).  The L-corner (0,0)->(1,0)->(1,1), both lines offset by
    [1] to their right: the offset lines meet at (2,-1), and after the join
    [previous.p1] and the joined line's [p0] are both (2,-1). *)
Theorem L_corner_join :
  exists prev last' joined,
    line_make_offset (mkLine (mkV2 0 0) (mkV2 1 0)) 1 None = Ok (None, prev) /\
    line_make_offset (mkLine (mkV2 1 0) (mkV2 0 1)) 1 (Some (SLine prev))
      = Ok (Some (SLine last'), joined) /\
    line_p1 last' = mkV2 2 (-1) /\ line_p0 joined = mkV2 2 (-1).
Proof.
  destruct L_corner_eval as [E1 E2].
  do 3 eexists. split; [exact E1|]. split; [exact E2|].
  unfold line_p1, line_p0; cbn [lp lv]; split; struct_eq; lra.
Qed.

(** C5 counterexample: the offset lines of the L-corner do not meet at (1,1). *)
Lemma L_corner_join_counterexample :
  ~ exists prev last' joined,
    line_make_offset (mkLine (mkV2 0 0) (mkV2 1 0)) 1 None = Ok (None, prev) /\
    line_make_offset (mkLine (mkV2 1 0) (mkV2 0 1)) 1 (Some (SLine prev))
      = Ok (Some (SLine last'), joined) /\
    line_p1 last' = mkV2 1 1 /\ line_p0 joined = mkV2 1 1.
Proof.
  intros (prev & last' & joined & E1 & E2 & _ & Hp).
  destruct L_corner_eval as [F1 F2].
  rewrite F1 in E1. injection E1 as <-.
  rewrite F2 in E2. injection E2 as _ <-.
  unfold line_p0 in Hp; cbn [lp] in Hp. injection Hp as Hx _. lra.
Qed.

(** ** Offset round trip *)

(** C9.  [Line.offset(d).offset(-d)] gives back the line (the normal used by
    both calls is the same, the direction being unchanged; this holds also
    for the zero vector, which mathutils normalises to itself), and
    [Arc.offset(d).offset(-d)] gives back the radius, each [Arc.offset] keeping
    [c], [a0] and [da]. *)
Theorem offset_roundtrip :
  (forall (l : Line) (d : R), line_offset (line_offset l d) (- d) = l) /\
  (forall (a : Arc) (d : R),
     ar (arc_offset (arc_offset a d) (- d)) = ar a /\
     ac (arc_offset a d) = ac a /\ aa0 (arc_offset a d) = aa0 a /\
     ada (arc_offset a d) = ada a).
Proof.
  split.
  - intros [[px py] v] d.
    unfold line_offset at 1. rewrite cross_z_offset.
    unfold line_offset; struct_eq; ring.
  - intros [c r r2 a0 da] d.
    unfold arc_offset, arc; cbn [ac ar ar2 aa0 ada].
    repeat split.
    destruct (Rlt_dec 0 da); ring.
Qed.

(** ** [Circle.intersect] *)

Lemma sqrt_sq_eq (a k : R) : a = k * k -> 0 <= k -> sqrt a = k.
Proof. intros -> Hk. apply sqrt_square; exact Hk. Qed.

Lemma vlength_eval (a b k : R) :
  a * a + b * b = k * k -> 0 <= k -> vlength (mkV2 a b) = k.
Proof. intros H Hk. unfold vlength, dot; cbn [x y]. apply sqrt_sq_eq; assumption. Qed.

Lemma normalized_eval (a b k : R) :
  a * a + b * b = k * k -> 0 < k -> normalized (mkV2 a b) = mkV2 (a / k) (b / k).
Proof.
  intros H Hk. unfold normalized. rewrite (vlength_eval a b k H) by lra.
  destruct (Req_EM_T k 0); [lra|reflexivity].
Qed.

(** The roots of [A s^2 + B s + C] when [A <> 0] and the discriminant is
    positive, in the form the source computes them. *)
Lemma quadratic_roots (A B C s : R) :
  A <> 0 -> 0 <= B * B - 4 * A * C ->
  let dsq := sqrt (B * B - 4 * A * C) in
  A * s * s + B * s + C
    = A * (s - (- B + dsq) / (2 * A)) * (s - (- B - dsq) / (2 * A)).
Proof.
  intros HA Hd dsq.
  assert (Hsq : dsq * dsq = B * B - 4 * A * C) by (apply sqrt_sqrt; exact Hd).
  replace C with ((B * B - dsq * dsq) / (4 * A)) at 1 by (rewrite Hsq; field; exact HA).
  field; exact HA.
Qed.

(** C6.  The spec calls the direction degenerate when [A = v.v] is about
    0, and the source tests that as [A <= 1e-7].  When [A] exceeds that
    threshold and the discriminant is positive, [Circle.intersect] reports
    [True] with a root [t] of the quadratic of least absolute value and the
    point [line.lerp(t)], which lies on the circle.  Of the two roots [t0],
    [t1] computed by the source, [t0] is taken when [|t0| < |t1|] and [t1]
    when [|t0| = |t1|].  For the circle of center (0,0) and radius 5 and the
    line from (-10,0) along (1,0) that is [t = 5] and the point (-5,0). *)
Theorem circle_intersect_two_roots (c : Circle) (l : Line) :
  let v := lp l -v cc c in
  let A := dot (lv l) (lv l) in
  let B := dot (2 *v v) (lv l) in
  let C := dot v v - cr2 c in
  let t0 := (- B + sqrt (B * B - 4 * A * C)) / (2 * A) in
  let t1 := (- B - sqrt (B * B - 4 * A * C)) / (2 * A) in
  1 / 10000000 < A -> 0 < B * B - 4 * A * C ->
  (exists t,
     circle_intersect c l = Ok (true, line_lerp l t, t) /\
     A * t * t + B * t + C = 0 /\
     dot (line_lerp l t -v cc c) (line_lerp l t -v cc c) = cr2 c /\
     (forall s, A * s * s + B * s + C = 0 -> Rabs t <= Rabs s) /\
     (Rabs t0 < Rabs t1 -> t = t0) /\
     (Rabs t0 = Rabs t1 -> t = t1)) /\
  circle_intersect (circle (mkV2 0 0) 5) (mkLine (mkV2 (-10) 0) (mkV2 1 0))
    = Ok (true, mkV2 (-5) 0, 5).
Proof.
  intros v A B C t0 t1 HA Hd. split.
  - assert (HA0 : A <> 0) by lra.
    assert (Hroots : forall s, A * s * s + B * s + C = 0 -> s = t0 \/ s = t1).
    { intros s Hs. rewrite (quadratic_roots A B C s HA0) in Hs by lra.
      apply Rmult_integral in Hs as [Hs|Hs]; [apply Rmult_integral in Hs as [Hs|Hs]|].
      - contradiction.
      - left; unfold t0; lra.
      - right; unfold t1; lra. }
    assert (Hsat : forall s, s = t0 \/ s = t1 -> A * s * s + B * s + C = 0).
    { intros s Hs. rewrite (quadratic_roots A B C s HA0) by lra.
      destruct Hs as [-> | ->]; unfold t0, t1; ring. }
    assert (Hcirc : forall s, A * s * s + B * s + C = 0 ->
              dot (line_lerp l s -v cc c) (line_lerp l s -v cc c) = cr2 c).
    { intros s Hs. unfold A, B, C, v in Hs. unfold line_lerp, dot in *.
      simpl_model. lra. }
    unfold circle_intersect. cbv zeta. fold v A B C.
    destruct (Rle_dec A _) as [H1|_]; [lra|].
    destruct (Rlt_dec (B * B - 4 * A * C) 0) as [H2|_]; [lra|].
    destruct (Req_EM_T (B * B - 4 * A * C) 0) as [H3|_]; [lra|].
    rewrite psqrt_nn by lra. cbn [bind fst snd].
    rewrite !pdiv_nz by lra. cbn [bind fst snd].
    fold t0 t1.
    destruct (Rlt_dec (Rabs t0) (Rabs t1)) as [Hlt|Hge].
    + exists t0. split; [reflexivity|].
      assert (E0 : A * t0 * t0 + B * t0 + C = 0) by (apply Hsat; left; reflexivity).
      split; [exact E0|]. split; [apply Hcirc; exact E0|].
      split; [intros s Hs; destruct (Hroots s Hs) as [-> | ->]; lra|].
      split; [reflexivity|]. intros E; lra.
    + exists t1. split; [reflexivity|].
      assert (E1 : A * t1 * t1 + B * t1 + C = 0) by (apply Hsat; right; reflexivity).
      split; [exact E1|]. split; [apply Hcirc; exact E1|].
      split; [intros s Hs; destruct (Hroots s Hs) as [-> | ->]; lra|].
      split; [intros E; contradiction|]. reflexivity.
  - unfold circle_intersect, circle, dot, line_lerp. simpl_model.
    decide_cmp.
    rewrite psqrt_nn by lra.
    rewrite (sqrt_sq_eq _ 10) by lra. cbn [bind fst snd].
    rewrite !pdiv_nz by lra. cbn [bind fst snd].
    decide_cmp.
    + exfalso. revert H2.
      replace ((- (2 * (-10 - 0) * 1 + 2 * (0 - 0) * 0) + 10) / (2 * (1 * 1 + 0 * 0)))
        with 15 by field.
      replace ((- (2 * (-10 - 0) * 1 + 2 * (0 - 0) * 0) - 10) / (2 * (1 * 1 + 0 * 0)))
        with 5 by field.
      rewrite !Rabs_right by lra. lra.
    + struct_eq; field.
Qed.

Lemma circle_intersect_two_roots_witness :
  let c := circle (mkV2 0 0) 5 in
  let l := mkLine (mkV2 (-10) 0) (mkV2 1 0) in
  let v := lp l -v cc c in
  let A := dot (lv l) (lv l) in
  let B := dot (2 *v v) (lv l) in
  let C := dot v v - cr2 c in
  let t0 := (- B + sqrt (B * B - 4 * A * C)) / (2 * A) in
  let t1 := (- B - sqrt (B * B - 4 * A * C)) / (2 * A) in
  1 / 10000000 < A /\ 0 < B * B - 4 * A * C /\
  (exists t,
     circle_intersect c l = Ok (true, line_lerp l t, t) /\
     A * t * t + B * t + C = 0 /\
     dot (line_lerp l t -v cc c) (line_lerp l t -v cc c) = cr2 c /\
     (forall s, A * s * s + B * s + C = 0 -> Rabs t <= Rabs s) /\
     (Rabs t0 < Rabs t1 -> t = t0) /\
     (Rabs t0 = Rabs t1 -> t = t1)).
Proof.
  intros c l v A B C t0 t1.
  assert (HA : 1 / 10000000 < A).
  { unfold A, l, dot; simpl_model; lra. }
  assert (Hd : 0 < B * B - 4 * A * C).
  { unfold A, B, C, v, l, c, circle, dot; simpl_model; lra. }
  split; [exact HA|]. split; [exact Hd|].
  exact (proj1 (circle_intersect_two_roots c l HA Hd)).
Defined.

(** C8 (code bug).  In the tangent case the source computes
    [t = -B / 2 * A], i.e. [(-B / 2) * A], not [-B / (2 * A)].  For the unit
    circle at the origin and the tangent line from (-2,1) along (2,0)
    (A = 4, B = -8, C = 4, discriminant 0) the code reports [t = 16] and the
    point (30,1), which is not on the circle, while the tangency is at
    [t = -B / (2 A) = 1], the point (0,1). *)
Theorem circle_intersect_tangent_slip :
  let l := mkLine (mkV2 (-2) 1) (mkV2 2 0) in
  let c := circle (mkV2 0 0) 1 in
  let v := lp l -v cc c in
  let A := dot (lv l) (lv l) in
  let B := dot (2 *v v) (lv l) in
  let C := dot v v - cr2 c in
  B * B - 4 * A * C = 0 /\
  circle_intersect c l = Ok (true, mkV2 30 1, 16) /\
  dot (mkV2 30 1 -v cc c) (mkV2 30 1 -v cc c) <> cr2 c /\
  - B / (2 * A) = 1 /\ line_lerp l 1 = mkV2 0 1 /\
  dot (mkV2 0 1 -v cc c) (mkV2 0 1 -v cc c) = cr2 c.
Proof.
  intros l c v A B C.
  unfold A, B, C, v, l, c, circle, circle_intersect, dot, line_lerp.
  simpl_model.
  split; [lra|]. split.
  - decide_cmp. struct_eq; field.
  - split; [lra|]. split; [field|]. split; [struct_eq; ring | lra].
Qed.

(** ** Zero-length lines *)

(** C10 (code bug).  [Line.intersect] does not divide when either line has
    [v = (0,0)] (the test [d == 0] returns first), and [angle] is [atan2],
    defined everywhere; but [Circle.intersect] sends a zero-length line to
    the fallback [line.point_sur_segment], which divides by the line's
    length and raises [ZeroDivisionError]. *)
Theorem zero_length_line_boundary :
  (forall (p : V2) (l : Line),
     line_intersect (mkLine p vzero) l = Ok (false, vzero, 0)) /\
  (forall (p : V2) (l : Line),
     line_intersect l (mkLine p vzero) = Ok (false, vzero, 0)) /\
  (forall (p : V2), line_angle (mkLine p vzero) = 0) /\
  circle_intersect (circle (mkV2 0 0) 1) (mkLine (mkV2 0 0) vzero)
    = Err ZeroDivisionError.
Proof.
  split; [|split; [|split]].
  - intros p l. unfold line_intersect, dot, vzero; cbn [lv x y].
    decide_cmp. reflexivity.
  - intros p l. unfold line_intersect, dot, cross_z, vzero; cbn [lv x y].
    decide_cmp. reflexivity.
  - intros p. unfold line_angle, atan2, vzero; cbn [lv x y].
    decide_cmp. reflexivity.
  - unfold circle_intersect, circle, line_point_sur_segment, line_length, dot, vzero.
    simpl_model.
    rewrite (vlength_eval _ _ 0) by lra.
    decide_cmp. unfold pdiv. decide_cmp. reflexivity.
Qed.

(** ** Arc / arc join *)

Lemma arc_p0_mk (c : V2) (r r2 a0 da : R) :
  arc_p0 (mkArc c r r2 a0 da) = c +v mkV2 (r * cos a0) (r * sin a0).
Proof.
  unfold arc_p0, arc_lerp; cbn [aa0 ada ac ar].
  replace (a0 + 0 * da) with a0 by ring. reflexivity.
Qed.

Lemma arc_p1_mk (c : V2) (r r2 a0 da : R) :
  arc_p1 (mkArc c r r2 a0 da) = c +v mkV2 (r * cos (a0 + da)) (r * sin (a0 + da)).
Proof.
  unfold arc_p1, arc_lerp; cbn [aa0 ada ac ar].
  replace (a0 + 1 * da) with (a0 + da) by ring. reflexivity.
Qed.

(** C7 (code bug).  The no-intersection test of the arc / arc branch is
    [dist > line.r + last.r or dist < abs(last.r - self.r)]: its second half
    uses the radius of the un-offset arc [self], while its first half and the
    construction that follows use the offset arc [line].  With
    self = Arc((0,0), 3, 0, 1) offset by -2 (offset radius 1) and
    previous = Arc((1,0), 1, 0, 1), the two circles meet (distance 1 between
    radii difference 0 and radii sum 2) yet the code returns unjoined.  In
    the other direction, self = Arc((0,0), 1, 0, 1) offset by 2 (offset
    radius 3) passes the test although the circles do not meet, and
    [math.sqrt] of a negative number raises [ValueError]. *)
Theorem arc_arc_fallback_slip :
  let self := arc (mkV2 0 0) 3 0 1 in
  let last := arc (mkV2 1 0) 1 0 1 in
  let line := arc_offset self (-2) in
  ar line = 1 /\ vlength (ac line -v ac last) = 1 /\
  Rabs (ar last - ar line) <= 1 <= ar last + ar line /\
  arc_make_offset self (-2) (Some (SArc last)) = Ok (Some (SArc last), line) /\
  arc_make_offset (arc (mkV2 0 0) 1 0 1) 2 (Some (SArc last)) = Err ValueError.
Proof.
  intros self last line.
  assert (Hline : line = mkArc (mkV2 0 0) 1 (1 * 1) 0 1).
  { unfold line, self, arc_offset, arc; cbn [ac ar aa0 ada].
    decide_cmp. struct_eq; ring. }
  split; [rewrite Hline; reflexivity|].
  split.
  { rewrite Hline. unfold last, arc. simpl_model. apply vlength_eval; lra. }
  split.
  { rewrite Hline. unfold last, arc. simpl_model.
    rewrite Rabs_right by lra. lra. }
  split.
  - unfold arc_make_offset. fold line. rewrite Hline.
    unfold self, last, arc, line_point_sur_segment, line_length, dot.
    rewrite arc_p0_mk, cos_0, sin_0. simpl_model.
    rewrite (vlength_eval _ _ 1) by lra.
    rewrite Rabs_left by lra.
    decide_cmp. rewrite !pdiv_nz by lra. cbn [bind fst snd].
    decide_cmp. reflexivity.
  - unfold arc_make_offset, last, arc_offset, arc, line_point_sur_segment,
      line_length, dot.
    cbn [ac ar ar2 aa0 ada]. destruct (Rlt_dec 0 1); [|lra].
    rewrite arc_p0_mk, cos_0, sin_0. simpl_model.
    rewrite (vlength_eval _ _ 1) by lra.
    rewrite Rabs_right by lra.
    decide_cmp. rewrite !pdiv_nz by lra. cbn [bind fst snd].
    decide_cmp.
    unfold vdiv. decide_cmp. cbn [bind fst snd].
    unfold psqrt. decide_cmp. reflexivity.
Qed.

(** ** Arc endpoint setters *)

Lemma atan2_pos_x_axis (yv xv : R) : yv = 0 -> 0 < xv -> atan2 yv xv = 0.
Proof.
  intros -> Hx. unfold atan2.
  destruct (Rlt_dec 0 xv); [|lra].
  unfold Rdiv; rewrite Rmult_0_l; apply atan_0.
Qed.

Lemma atan2_neg_x_axis (yv xv : R) : yv = 0 -> xv < 0 -> atan2 yv xv = PI.
Proof.
  intros -> Hx. unfold atan2.
  destruct (Rlt_dec 0 xv); [lra|].
  destruct (Rlt_dec xv 0); [|lra].
  destruct (Rle_dec 0 0); [|lra].
  unfold Rdiv; rewrite Rmult_0_l, atan_0; ring.
Qed.

Lemma atan2_pos_y_axis (yv xv : R) : xv = 0 -> 0 < yv -> atan2 yv xv = PI / 2.
Proof.
  intros -> Hy. unfold atan2.
  destruct (Rlt_dec 0 0); [lra|].
  destruct (Rlt_dec 0 0); [lra|].
  destruct (Rlt_dec 0 yv); [reflexivity|lra].
Qed.

(** C2 (code bug).  Both setters read [self.p0] after moving [c] and [r]
    but before [a0] is recomputed, so [a0] keeps its old value (up to 2 pi)
    and the arc only moves by the similarity when the rotation is trivial.
    Arc((0,0), 1, a0 = 0, da = pi) runs from (1,0) to (-1,0).  Setting
    [p1 = (3,0)] (a half turn about p0) gives the arc of center (2,0) from
    (3,0) to (1,0): [p0] has moved and [p1] is not (3,0).  Setting
    [p0 = (-3,0)] instead gives the arc of center (-2,0) from (-1,0) to
    (-3,0).  [da] is kept in both. *)
Theorem arc_setters_slip :
  let a := arc (mkV2 0 0) 1 0 PI in
  arc_p0 a = mkV2 1 0 /\ arc_p1 a = mkV2 (-1) 0 /\
  (exists a', arc_set_p1 a (mkV2 3 0) = Ok a' /\ ada a' = PI /\
     arc_p0 a' = mkV2 3 0 /\ arc_p1 a' = mkV2 1 0) /\
  (exists a', arc_set_p0 a (mkV2 (-3) 0) = Ok a' /\ ada a' = PI /\
     arc_p0 a' = mkV2 (-1) 0 /\ arc_p1 a' = mkV2 (-3) 0).
Proof.
  intros a. unfold a, arc.
  assert (HPI : 0 + PI = PI) by ring.
  split; [|split; [|split]].
  - rewrite arc_p0_mk, cos_0, sin_0. struct_eq; ring.
  - rewrite arc_p1_mk, HPI, cos_PI, sin_PI. struct_eq; ring.
  - unfold arc_set_p1, rot_scale_matrix, signed_angle, mmul,
      arc_set_c, arc_set_r, arc_set_r2, arc_set_a0.
    rewrite !arc_p0_mk, !arc_p1_mk, HPI, cos_0, sin_0, cos_PI, sin_PI.
    simpl_model.
    rewrite atan2_neg_x_axis by lra. rewrite cos_PI, sin_PI.
    rewrite (vlength_eval _ _ 2) by lra. rewrite (vlength_eval _ _ 2) by lra.
    rewrite pdiv_nz by lra. cbn [bind fst snd m11 m12 m21 m22].
    rewrite arc_p0_mk, cos_0, sin_0. simpl_model.
    rewrite atan2_pos_x_axis by lra.
    eexists; split; [reflexivity|].
    split; [reflexivity|].
    rewrite arc_p0_mk, arc_p1_mk, HPI, cos_0, sin_0, cos_PI, sin_PI.
    split; struct_eq; field.
  - unfold arc_set_p0, rot_scale_matrix, signed_angle, mmul,
      arc_set_c, arc_set_r, arc_set_r2, arc_set_a0.
    rewrite !arc_p0_mk, !arc_p1_mk, HPI, cos_0, sin_0, cos_PI, sin_PI.
    simpl_model.
    rewrite atan2_neg_x_axis by lra. rewrite cos_PI, sin_PI.
    rewrite (vlength_eval _ _ 2) by lra. rewrite (vlength_eval _ _ 2) by lra.
    rewrite pdiv_nz by lra. cbn [bind fst snd m11 m12 m21 m22].
    rewrite arc_p0_mk, cos_0, sin_0. simpl_model.
    rewrite atan2_pos_x_axis by lra.
    eexists; split; [reflexivity|].
    split; [reflexivity|].
    rewrite arc_p0_mk, arc_p1_mk, HPI, cos_0, sin_0, cos_PI, sin_PI.
    split; struct_eq; field.
Qed.

(** ** Arc / line join and the winding correction *)

Lemma line_offset_0 (l : Line) : line_offset l 0 = l.
Proof. destruct l as [[px py] v]. unfold line_offset. struct_eq; ring. Qed.

(** [Line.make_offset] with previous = Arc((0,0), 1, a0 = 0, da = -pi/2)
    (clockwise, from (1,0) to (0,-1)) and self = Line((0,2),(0,-4)) offset
    by 0: the center projects on the line at t = 1/2 with lateral distance
    0, the circle reaches the line ([c = 1 > 0]), the join point is (0,1),
    the raw signed angle from (1,0) to (0,1) is pi/2, and the code stores
    [da = 2 pi - pi/2]. *)
Lemma arc_line_join_eval :
  line_make_offset (mkLine (mkV2 0 2) (mkV2 0 (-4))) 0
    (Some (SArc (arc (mkV2 0 0) 1 0 (- (PI / 2)))))
  = Ok (Some (SArc (mkArc (mkV2 0 0) 1 (1 * 1) 0 (2 * PI - PI / 2))),
        line_set_p0 (mkLine (mkV2 0 2) (mkV2 0 (-4))) (mkV2 0 1)).
Proof.
  pose proof PI_RGT_0 as HPI.
  unfold line_make_offset. rewrite line_offset_0.
  unfold arc, line_point_sur_segment, line_length, line_lerp, dot.
  simpl_model.
  rewrite (vlength_eval _ _ 4) by lra.
  rewrite !pdiv_nz by lra. cbn [bind fst snd].
  decide_cmp.
  rewrite psqrt_nn by lra. rewrite (sqrt_sq_eq _ 1) by lra. cbn [bind fst snd].
  rewrite (normalized_eval _ _ 4) by lra.
  rewrite arc_p0_mk, cos_0, sin_0.
  unfold signed_angle. simpl_model.
  rewrite atan2_pos_y_axis by lra.
  unfold fix_winding, ccw. simpl_model. decide_cmp.
  unfold line_set_p0, line_p1. struct_eq; field.
Qed.

Lemma arc_line_join_result :
  line_make_offset (mkLine (mkV2 0 2) (mkV2 0 (-4))) 0
    (Some (SArc (arc (mkV2 0 0) 1 0 (- (PI / 2)))))
  = Ok (Some (SArc (mkArc (mkV2 0 0) 1 (1 * 1) 0 (3 * (PI / 2)))),
        mkLine (mkV2 0 1) (mkV2 0 (-3))).
Proof.
  rewrite arc_line_join_eval.
  unfold line_set_p0, line_p1. struct_eq; field.
Qed.

Lemma arc_p1_three_quarter (c : V2) (r r2 : R) :
  arc_p1 (mkArc c r r2 0 (3 * (PI / 2))) = c +v mkV2 0 (- r).
Proof.
  rewrite arc_p1_mk, Rplus_0_l, cos_3PI2, sin_3PI2. struct_eq; ring.
Qed.

(** C1 (code bug).  The arc-then-line join of [Line.make_offset] does not
    make [previous.p1] equal the new line's [p0] when the previous arc is
    clockwise and the raw angle to the join point is positive: with
    previous = Arc((0,0), 1, 0, -pi/2) and self = Line((0,2),(0,-4)) offset
    by 0 the circle reaches the line (no fallback), the new line starts at
    (0,1), but the arc gets [da = 3 pi / 2] and ends at (0,-1). *)
Theorem join_shared_endpoint_arc_line_slip :
  let last := arc (mkV2 0 0) 1 0 (- (PI / 2)) in
  let self := mkLine (mkV2 0 2) (mkV2 0 (-4)) in
  (exists res, line_point_sur_segment (line_offset self 0) (ac last) = Ok res /\
     0 < ar last * ar last - snd (fst res) * snd (fst res)) /\
  exists last' joined,
    line_make_offset self 0 (Some (SArc last)) = Ok (Some (SArc last'), joined) /\
    line_p0 joined = mkV2 0 1 /\ arc_p1 last' = mkV2 0 (-1) /\
    arc_p1 last' <> line_p0 joined.
Proof.
  intros last self. split.
  - unfold self, last, arc. rewrite line_offset_0.
    unfold line_point_sur_segment, line_length, dot. simpl_model.
    rewrite (vlength_eval _ _ 4) by lra.
    rewrite !pdiv_nz by lra. cbn [bind fst snd].
    eexists; split; [reflexivity|]. cbn [fst snd ar]. lra.
  - unfold self, last. rewrite arc_line_join_result.
    do 2 eexists. split; [reflexivity|].
    rewrite arc_p1_three_quarter. unfold line_p0; cbn [lp].
    split; [reflexivity|]. split; [struct_eq; ring|].
    intros E. struct_eq. injection E as E. lra.
Qed.

(** C4 (code bug).  The correction block adds [2 pi] for a counter-clockwise
    arc ([da = 2 * pi + da]) but, for a clockwise arc whose raw angle is
    positive, computes [da = 2 * pi - da] instead of [da - 2 * pi].  At the
    input of C1 the raw angle is [pi/2] and the stored sweep is [3 pi / 2]:
    positive for a clockwise arc, and not congruent to [pi/2] modulo
    [2 pi].  The same block is repeated in [Arc.make_offset] ([fix_winding]
    models both). *)
Theorem winding_correction_slip :
  let last := arc (mkV2 0 0) 1 0 (- (PI / 2)) in
  let self := mkLine (mkV2 0 2) (mkV2 0 (-4)) in
  ccw last = false /\
  signed_angle (arc_p0 last -v ac last) (mkV2 0 1 -v ac last) = PI / 2 /\
  (exists last' joined,
     line_make_offset self 0 (Some (SArc last)) = Ok (Some (SArc last'), joined) /\
     ada last' = fix_winding false (PI / 2) /\ ada last' = 3 * (PI / 2)) /\
  0 < 3 * (PI / 2) /\
  ~ (exists k : Z, 3 * (PI / 2) = PI / 2 + 2 * PI * IZR k).
Proof.
  pose proof PI_RGT_0 as HPI.
  intros last self. split; [|split; [|split; [|split]]].
  - unfold ccw, last, arc; cbn [ada]. decide_cmp. reflexivity.
  - unfold last, arc. rewrite arc_p0_mk, cos_0, sin_0.
    unfold signed_angle. simpl_model. apply atan2_pos_y_axis; lra.
  - unfold self, last. rewrite arc_line_join_result.
    do 2 eexists. split; [reflexivity|]. cbn [ada].
    unfold fix_winding. decide_cmp. split; field.
  - lra.
  - intros [k Hk].
    assert (Hk2 : PI * (1 - 2 * IZR k) = 0) by lra.
    apply Rmult_integral in Hk2 as [E|E]; [lra|].
    destruct (Z.le_gt_cases k 0) as [Hle|Hgt].
    + apply IZR_le in Hle. lra.
    + assert (H1 : (1 <= k)%Z) by lia. apply IZR_le in H1. lra.
Qed.

(** * Further properties of the code

    Properties of the members of [Line], [Arc], [Projection] and [Line3d]
    around the offset join, read off the source. *)

(** ** Helper facts on [atan2], [sqrt] and Python rounding *)

Lemma sqrt_pos_of_nz (a b : R) : ~ (a = 0 /\ b = 0) -> 0 < sqrt (a * a + b * b).
Proof.
  intros H. apply sqrt_lt_R0.
  destruct (Req_EM_T a 0) as [->|Ha].
  - destruct (Req_EM_T b 0) as [->|Hb]; [tauto|].
    pose proof (Rsqr_pos_lt b Hb). unfold Rsqr in *. lra.
  - pose proof (Rsqr_pos_lt a Ha). pose proof (Rle_0_sqr b). unfold Rsqr in *. lra.
Qed.

Lemma sqrt_atan_scale (a b : R) :
  a <> 0 -> sqrt (a * a + b * b) = Rabs a * sqrt (1 + (b / a)²).
Proof.
  intros Ha.
  assert (E : a * a + b * b = (Rabs a)² * (1 + (b / a)²)).
  { rewrite <- Rsqr_abs. unfold Rsqr. field. exact Ha. }
  rewrite E, sqrt_mult_alt by (apply Rle_0_sqr).
  rewrite sqrt_Rsqr by (apply Rabs_pos). reflexivity.
Qed.

Lemma cos_sin_atan2 (a b : R) :
  ~ (a = 0 /\ b = 0) ->
  cos (atan2 b a) = a / sqrt (a * a + b * b) /\
  sin (atan2 b a) = b / sqrt (a * a + b * b).
Proof.
  intros Hnz. unfold atan2.
  destruct (Rlt_dec 0 a) as [Ha|Ha].
  - rewrite sqrt_atan_scale by lra. rewrite Rabs_right by lra.
    rewrite cos_atan, sin_atan.
    assert (0 < sqrt (1 + (b / a)²)).
    { apply sqrt_lt_R0. pose proof (Rle_0_sqr (b / a)). lra. }
    split; field; lra.
  - destruct (Rlt_dec a 0) as [Ha'|Ha'].
    + rewrite sqrt_atan_scale by lra. rewrite Rabs_left by lra.
      assert (0 < sqrt (1 + (b / a)²)).
      { apply sqrt_lt_R0. pose proof (Rle_0_sqr (b / a)). lra. }
      destruct (Rle_dec 0 b).
      * rewrite neg_cos, neg_sin, cos_atan, sin_atan. split; field; lra.
      * rewrite cos_minus, sin_minus, cos_PI, sin_PI, cos_atan, sin_atan.
        split; field; lra.
    + assert (a = 0) by lra. subst a.
      replace (0 * 0 + b * b) with (b²) by (unfold Rsqr; ring).
      rewrite sqrt_Rsqr_abs.
      destruct (Rlt_dec 0 b).
      * rewrite Rabs_right by lra. rewrite cos_PI2, sin_PI2. split; field; lra.
      * destruct (Rlt_dec b 0); [|lra].
        rewrite Rabs_left by lra. rewrite cos_neg, sin_neg, cos_PI2, sin_PI2.
        split; field; lra.
Qed.

Lemma atan2_scale (k a b : R) : 0 < k -> atan2 (k * b) (k * a) = atan2 b a.
Proof.
  intros Hk. unfold atan2.
  replace (k * b / (k * a)) with (b / a).
  2:{ destruct (Req_EM_T a 0) as [->|Ha].
      - rewrite Rmult_0_r; unfold Rdiv; rewrite !Rinv_0; ring.
      - field; split; lra. }
  destruct (Rlt_dec 0 (k * a)), (Rlt_dec 0 a); try (exfalso; nra);
  destruct (Rlt_dec (k * a) 0), (Rlt_dec a 0); try (exfalso; nra); try reflexivity.
  - destruct (Rle_dec 0 (k * b)), (Rle_dec 0 b); try (exfalso; nra); reflexivity.
  - destruct (Rlt_dec 0 (k * b)), (Rlt_dec 0 b); try (exfalso; nra); try reflexivity.
    destruct (Rlt_dec (k * b) 0), (Rlt_dec b 0); try (exfalso; nra); reflexivity.
Qed.

Lemma atan2_sin_cos (th : R) : - PI < th <= PI -> atan2 (sin th) (cos th) = th.
Proof.
  intros [Hlo Hhi]. pose proof PI_RGT_0 as Hpi. unfold atan2.
  destruct (Rlt_dec th (- (PI / 2))) as [H1|H1].
  - assert (Hc : cos th < 0).
    { rewrite <- cos_neg. apply cos_lt_0; lra. }
    assert (Hs : sin th < 0) by (apply sin_lt_0_var; lra).
    destruct (Rlt_dec 0 (cos th)); [lra|].
    destruct (Rlt_dec (cos th) 0); [|lra].
    destruct (Rle_dec 0 (sin th)); [lra|].
    replace (sin th / cos th) with (tan (th + PI)).
    + rewrite atan_tan by lra. ring.
    + unfold tan. rewrite neg_sin, neg_cos. field. lra.
  - destruct (Req_EM_T th (- (PI / 2))) as [E|E].
    + subst th. rewrite cos_neg, sin_neg, cos_PI2, sin_PI2.
      decide_cmp; reflexivity.
    + destruct (Rlt_dec th (PI / 2)) as [H2|H2].
      * assert (Hc : 0 < cos th) by (apply cos_gt_0; lra).
        destruct (Rlt_dec 0 (cos th)); [|lra].
        change (sin th / cos th) with (tan th). apply atan_tan; lra.
      * destruct (Req_EM_T th (PI / 2)) as [E2|E2].
        -- subst th. rewrite cos_PI2, sin_PI2.
           decide_cmp; reflexivity.
        -- assert (Hc : cos th < 0) by (apply cos_lt_0; lra).
           assert (Hs : 0 <= sin th) by (apply sin_ge_0; lra).
           destruct (Rlt_dec 0 (cos th)); [lra|].
           destruct (Rlt_dec (cos th) 0); [|lra].
           destruct (Rle_dec 0 (sin th)); [|lra].
           replace (sin th / cos th) with (tan (th - PI)).
           ++ rewrite atan_tan by lra. ring.
           ++ unfold tan. rewrite sin_minus, cos_minus, sin_PI, cos_PI. field. lra.
Qed.

Lemma Int_part_IZR (z : Z) : Int_part (IZR z) = z.
Proof.
  unfold Int_part. rewrite <- (tech_up (IZR z) (z + 1)).
  - ring.
  - rewrite plus_IZR; lra.
  - rewrite plus_IZR; lra.
Qed.

Lemma py_round_near (q : R) : exists n, py_round q = IZR n /\ Rabs (IZR n - q) <= 1 / 2.
Proof.
  unfold py_round. pose proof (base_Int_part q) as [H1 H2].
  set (f := Int_part q) in *.
  destruct (Rlt_dec (q - IZR f) (1 / 2)).
  - exists f. split; [reflexivity|]. apply Rabs_le; lra.
  - destruct (Rlt_dec (1 / 2) (q - IZR f)).
    + exists (f + 1)%Z. split; [reflexivity|]. rewrite plus_IZR. apply Rabs_le; lra.
    + destruct (Z.even f).
      * exists f. split; [reflexivity|]. apply Rabs_le; lra.
      * exists (f + 1)%Z. split; [reflexivity|]. rewrite plus_IZR. apply Rabs_le; lra.
Qed.

Lemma py_steps_count (q : R) :
  exists n, py_max 1 (py_round q) = IZR n /\ py_int (IZR n) = n /\ (1 <= n)%Z /\
    (1 / 2 <= q -> Rabs (IZR n - q) <= 1 / 2).
Proof.
  destruct (py_round_near q) as [m [Hm Hr]]. rewrite Hm. unfold py_max.
  destruct (Rlt_dec 1 (IZR m)) as [Hlt|Hge].
  - exists m. apply lt_IZR in Hlt.
    unfold py_int. destruct (Rle_dec 0 (IZR m)) as [_|N]; [|exfalso; apply N, IZR_le; lia].
    rewrite Int_part_IZR. repeat split; [lia|intros; exact Hr].
  - exists 1%Z. unfold py_int. destruct (Rle_dec 0 (IZR 1)) as [_|N]; [|exfalso; lra].
    rewrite Int_part_IZR. repeat split; [lia|]. intros Hq.
    apply Rnot_lt_le in Hge.
    assert (-(1/2) <= IZR m - q <= 1/2) as [Hr1 Hr2].
    { unfold Rabs in Hr. destruct (Rcase_abs (IZR m - q)); split; lra. }
    apply Rabs_le. lra.
Qed.

Lemma vnz_sum (l : Line) :
  lv l <> vzero -> ~ (x (lv l) = 0 /\ y (lv l) = 0).
Proof.
  destruct l as [p [vx vy]]; cbn [lv x y]. intros H [-> ->]. apply H. reflexivity.
Qed.

(** The unit right normal and the length of a line of nonzero length. *)
Lemma line_unit_normal (l : Line) :
  lv l <> vzero ->
  let L := sqrt (x (lv l) * x (lv l) + y (lv l) * y (lv l)) in
  0 < L /\ L * L = x (lv l) * x (lv l) + y (lv l) * y (lv l) /\
  line_length l = L /\
  normalized (cross_z l) = mkV2 (y (lv l) / L) (- x (lv l) / L) /\
  normalized (lv l) = mkV2 (x (lv l) / L) (y (lv l) / L).
Proof.
  intros Hnz L. pose proof (sqrt_pos_of_nz _ _ (vnz_sum l Hnz)) as HL.
  fold L in HL.
  assert (HLL : L * L = x (lv l) * x (lv l) + y (lv l) * y (lv l)).
  { unfold L. apply sqrt_sqrt. nra. }
  repeat split; try assumption.
  - unfold cross_z. apply normalized_eval; [nra|lra].
  - destruct l as [p [vx vy]]; cbn [lv x y] in *. apply normalized_eval; lra.
Qed.

(** X1. The endpoint setters of [Line] move one end only: after
    [p0 = q] the start is [q] and [p1] is unchanged, after [p1 = q] the end is
    [q] and [p0] is unchanged; [lerp] runs from [p0] at 0 to [p1] at 1. *)
Theorem line_setters_move_one_end (l : Line) (q : V2) :
  line_p0 (line_set_p0 l q) = q /\ line_p1 (line_set_p0 l q) = line_p1 l /\
  line_p0 (line_set_p1 l q) = line_p0 l /\ line_p1 (line_set_p1 l q) = q /\
  line_lerp l 0 = line_p0 l /\ line_lerp l 1 = line_p1 l.
Proof.
  destruct l as [[px py] [vx vy]], q as [qx qy].
  unfold line_p0, line_p1, line_set_p0, line_set_p1, line_lerp, line_p1.
  simpl_model. repeat split; apply v2_eq; ring.
Qed.

(** X2. [Line.oposite] swaps the two ends and is an involution;
    [Line.reversed] keeps the start and is an involution. *)
Theorem line_oposite_swaps_ends (l : Line) :
  line_p0 (line_oposite l) = line_p1 l /\ line_p1 (line_oposite l) = line_p0 l /\
  line_oposite (line_oposite l) = l /\
  line_p0 (line_reversed l) = line_p0 l /\ line_reversed (line_reversed l) = l.
Proof.
  destruct l as [[px py] [vx vy]].
  unfold line_p0, line_p1, line_oposite, line_reversed.
  simpl_model. repeat split; struct_eq; ring.
Qed.

(** X3. [Line.intersect] never raises, and when it reports an
    intersection the point is [self.lerp(t)] and lies on the other line. *)
Theorem line_intersect_on_both_lines (self line : Line) :
  (exists r, line_intersect self line = Ok r) /\
  (forall p t, line_intersect self line = Ok (true, p, t) ->
     p = line_lerp self t /\ exists s, p = line_lerp line s).
Proof.
  destruct self as [[a b] [c d]], line as [[e f] [g h]].
  unfold line_intersect, cross_z, dot. simpl_model.
  destruct (Req_EM_T (c * h + d * - g) 0) as [E|E].
  - split; [eexists; reflexivity|]. intros p t H. discriminate H.
  - rewrite pdiv_nz by exact E. cbn [bind].
    split; [eexists; reflexivity|]. intros p t H. injection H as <- <-.
    split; [reflexivity|].
    exists ((c * (b - f) - d * (a - e)) / (c * h + d * - g)).
    unfold line_lerp; simpl_model. apply v2_eq; field; exact E.
Qed.

Lemma line_point_sur_segment_decomp (l : Line) (t d : R) :
  lv l <> vzero ->
  line_point_sur_segment l (line_lerp l t +v (d *v normalized (cross_z l))) =
    Ok (if Rlt_dec 0 t then (if Rlt_dec t 1 then true else false) else false, - d, t).
Proof.
  intros Hnz. destruct (line_unit_normal l Hnz) as (HL & HLL & Hlen & Hn & _).
  set (L := sqrt _) in *.
  unfold line_point_sur_segment. rewrite Hlen, Hn.
  destruct l as [[px py] [vx vy]]. unfold line_lerp, dot. simpl_model.
  rewrite pdiv_nz by lra. cbn [bind]. rewrite pdiv_nz by nra. cbn [bind].
  match goal with
  | |- Ok (_, ?D, ?T) = _ =>
      assert (ED : D = - d);
      [ transitivity (- d * (vx * vx + vy * vy) / (L * L)); [field; lra | rewrite <- HLL; field; lra]
      | assert (ET : T = t);
        [ transitivity (t * (vx * vx + vy * vy) / (L * L)); [field; lra | rewrite <- HLL; field; lra]
        | rewrite ED, ET; reflexivity ] ]
  end.
Qed.

(** X4. For a line of nonzero length, [point_sur_segment] on the point
    [lerp(t) + d n], [n] the unit right normal along which [offset] moves,
    gives back [t] and the lateral distance [-d]: points on the right side get
    a negative distance. *)
Theorem line_point_sur_segment_lerp (l : Line) (t d : R) :
  lv l <> vzero ->
  line_point_sur_segment l (line_lerp l t +v (d *v normalized (cross_z l))) =
    Ok (if Rlt_dec 0 t then (if Rlt_dec t 1 then true else false) else false, - d, t).
Proof. apply line_point_sur_segment_decomp. Qed.

Lemma vlength_scaled_unit (k a b L : R) :
  0 < L -> L * L = a * a + b * b ->
  vlength (mkV2 (k * (a / L)) (k * (b / L))) = Rabs k.
Proof.
  intros HL HLL. apply vlength_eval; [|apply Rabs_pos].
  rewrite <- Rabs_mult, Rabs_right by nra.
  transitivity (k * k * (a * a + b * b) / (L * L)); [field; lra | rewrite <- HLL; field; lra].
Qed.

(** X5. For a line of nonzero length, [sized_normal(t, size)] starts
    at [lerp(t)], is perpendicular to the line, has length [|size|], and
    [point_sur_segment] places its end at parameter [t] and lateral distance
    [-size]. *)
Theorem line_sized_normal_right (l : Line) (t size : R) :
  lv l <> vzero ->
  lp (line_sized_normal l t size) = line_lerp l t /\
  dot (lv (line_sized_normal l t size)) (lv l) = 0 /\
  line_length (line_sized_normal l t size) = Rabs size /\
  line_point_sur_segment l (line_p1 (line_sized_normal l t size)) =
    Ok (if Rlt_dec 0 t then (if Rlt_dec t 1 then true else false) else false, - size, t).
Proof.
  intros Hnz. destruct (line_unit_normal l Hnz) as (HL & HLL & Hlen & Hn & _).
  set (L := sqrt _) in *.
  split; [reflexivity|]. split; [|split].
  - unfold line_sized_normal, dot. rewrite Hn. simpl_model. field. lra.
  - unfold line_length, line_sized_normal. rewrite Hn. cbn [lv].
    unfold vscale; cbn [x y]. apply (vlength_scaled_unit size _ _ L HL). nra.
  - apply line_point_sur_segment_decomp; exact Hnz.
Qed.

Lemma steps_tail (q : R) :
  exists n,
    (let steps := py_max 1 (py_round q) in
     let* dt := pdiv 1 steps in Ok (dt, py_int steps)) = Ok (1 / IZR n, n) /\
    (1 <= n)%Z /\ (1 / 2 <= q -> Rabs (IZR n - q) <= 1 / 2).
Proof.
  destruct (py_steps_count q) as (n & Hs & Hi & Hn & Hr).
  exists n. cbv zeta. rewrite Hs, Hi.
  rewrite pdiv_nz by (apply not_0_IZR; lia). split; [reflexivity|]. split; assumption.
Qed.

Ltac steps_case q :=
  let n := fresh "n" in
  let E := fresh "E" in
  destruct (steps_tail q) as (n & E & ? & ?);
  exists (1 / IZR n), n; split; [exact E|];
  split; [assumption|]; split; [field; apply not_0_IZR; lia | assumption].

(** X6. [Line.steps(len)] raises [ZeroDivisionError] for [len = 0];
    otherwise it returns [(dt, n)] with [n >= 1] and [dt * n = 1], [n] being
    the nearest integer to [length / len] once that ratio reaches 1/2. *)
Theorem line_steps_at_least_one (l : Line) (len : R) :
  (len = 0 -> line_steps l len = Err ZeroDivisionError) /\
  (len <> 0 ->
   exists dt n, line_steps l len = Ok (dt, n) /\ (1 <= n)%Z /\ dt * IZR n = 1 /\
     (1 / 2 <= line_length l / len -> Rabs (IZR n - line_length l / len) <= 1 / 2)).
Proof.
  split; intros H.
  - subst len. unfold line_steps, pdiv. destruct (Req_EM_T 0 0); [reflexivity|lra].
  - unfold line_steps. rewrite pdiv_nz by exact H. rewrite bind_Ok.
    steps_case (line_length l / len).
Qed.

(** X7. [Arc.steps] and [Arc.steps_by_angle] raise
    [ZeroDivisionError] on a zero step; otherwise they return [(dt, n)] with
    [n >= 1], [dt * n = 1], and [n] the nearest integer to the ratio once it
    reaches 1/2. *)
Theorem arc_steps_at_least_one (a : Arc) (len step_angle : R) :
  (len = 0 -> arc_steps a len = Err ZeroDivisionError) /\
  (len <> 0 ->
   exists dt n, arc_steps a len = Ok (dt, n) /\ (1 <= n)%Z /\ dt * IZR n = 1 /\
     (1 / 2 <= arc_length a / len -> Rabs (IZR n - arc_length a / len) <= 1 / 2)) /\
  (step_angle = 0 -> arc_steps_by_angle a step_angle = Err ZeroDivisionError) /\
  (step_angle <> 0 ->
   exists dt n, arc_steps_by_angle a step_angle = Ok (dt, n) /\ (1 <= n)%Z /\ dt * IZR n = 1 /\
     (1 / 2 <= Rabs (ada a) / step_angle ->
      Rabs (IZR n - Rabs (ada a) / step_angle) <= 1 / 2)).
Proof.
  split; [|split; [|split]]; intros H.
  - subst len. unfold arc_steps, pdiv. destruct (Req_EM_T 0 0); [reflexivity|lra].
  - unfold arc_steps. rewrite pdiv_nz by exact H. rewrite bind_Ok.
    steps_case (arc_length a / len).
  - subst step_angle. unfold arc_steps_by_angle, pdiv.
    destruct (Req_EM_T 0 0); [reflexivity|lra].
  - unfold arc_steps_by_angle. rewrite pdiv_nz by exact H. rewrite bind_Ok.
    steps_case (Rabs (ada a) / step_angle).
Qed.

(** X8. [Line.rotate] composes by adding angles, rotating by 0 changes
    nothing, and a rotation keeps the start point and the length. *)
Theorem line_rotate_compose (l : Line) (a b : R) :
  line_rotate (line_rotate l a) b = line_rotate l (a + b) /\
  line_rotate l 0 = l /\
  line_p0 (line_rotate l a) = line_p0 l /\
  line_length (line_rotate l a) = line_length l.
Proof.
  destruct l as [p [vx vy]]. unfold line_rotate. cbn [lp lv x y].
  split; [|split; [|split]].
  - rewrite cos_plus, sin_plus. struct_eq; ring.
  - rewrite cos_0, sin_0. struct_eq; ring.
  - reflexivity.
  - unfold line_length, vlength, dot. cbn [lv x y]. f_equal.
    pose proof (sin2_cos2 a) as H. unfold Rsqr in H.
    transitivity ((vx * vx + vy * vy) * (sin a * sin a + cos a * cos a)); [ring|].
    rewrite H. ring.
Qed.

Lemma normalized_zero : normalized (mkV2 0 0) = mkV2 0 0.
Proof.
  unfold normalized, vlength, dot. cbn [x y].
  replace (0 * 0 + 0 * 0) with 0 by ring. rewrite sqrt_0.
  destruct (Req_EM_T 0 0); [reflexivity|lra].
Qed.

(** X9. [Line.scale(length)] keeps the start; a zero-length line stays
    zero-length, any other line gets length [|length|], and a positive
    [length] keeps the direction. *)
Theorem line_scale_sets_length (l : Line) (len : R) :
  line_p0 (line_scale l len) = line_p0 l /\
  (lv l = vzero -> lv (line_scale l len) = vzero) /\
  (lv l <> vzero -> line_length (line_scale l len) = Rabs len) /\
  (0 < len -> normalized (lv (line_scale l len)) = normalized (lv l)).
Proof.
  split; [reflexivity|]. split; [|split].
  - destruct l as [p v]; cbn [lv]. intros ->. unfold line_scale, vzero; cbn [lv].
    rewrite normalized_zero. struct_eq; ring.
  - intros Hnz. destruct (line_unit_normal l Hnz) as (HL & HLL & _ & _ & Hv).
    unfold line_length, line_scale. cbn [lv]. rewrite Hv. unfold vscale; cbn [x y].
    apply vlength_scaled_unit; assumption.
  - intros Hk. destruct (Req_EM_T (x (lv l)) 0) as [Ex|Ex];
      [destruct (Req_EM_T (y (lv l)) 0) as [Ey|Ey]|].
    + destruct l as [p [vx vy]]; cbn [lv x y] in *; subst.
      unfold line_scale; cbn [lv]. rewrite normalized_zero.
      unfold vscale; cbn [x y]. rewrite Rmult_0_r, normalized_zero. reflexivity.
    + assert (Hnz : lv l <> vzero) by (destruct l as [p [vx vy]]; cbn [lv x y] in *; unfold vzero; intros E; injection E as E1 E2; lra).
      destruct (line_unit_normal l Hnz) as (HL & HLL & _ & _ & Hv).
      set (L := sqrt _) in *. unfold line_scale; cbn [lv]. rewrite Hv.
      unfold vscale; cbn [x y]. rewrite (normalized_eval _ _ len); [| |exact Hk].
      * apply v2_eq; field; split; lra.
      * transitivity (len * len * (x (lv l) * x (lv l) + y (lv l) * y (lv l)) / (L * L));
          [field; lra | rewrite <- HLL; field; lra].
    + assert (Hnz : lv l <> vzero) by (destruct l as [p [vx vy]]; cbn [lv x y] in *; unfold vzero; intros E; injection E as E1 E2; lra).
      destruct (line_unit_normal l Hnz) as (HL & HLL & _ & _ & Hv).
      set (L := sqrt _) in *. unfold line_scale; cbn [lv]. rewrite Hv.
      unfold vscale; cbn [x y]. rewrite (normalized_eval _ _ len); [| |exact Hk].
      * apply v2_eq; field; split; lra.
      * transitivity (len * len * (x (lv l) * x (lv l) + y (lv l) * y (lv l)) / (L * L));
          [field; lra | rewrite <- HLL; field; lra].
Qed.

Lemma line_angle_normal_cos_sin (l : Line) :
  lv l <> vzero ->
  normalized (cross_z l) = mkV2 (cos (line_angle_normal l)) (sin (line_angle_normal l)).
Proof.
  intros Hnz. destruct (line_unit_normal l Hnz) as (HL & HLL & _ & Hn & _).
  rewrite Hn. unfold line_angle_normal.
  assert (Hab : ~ (y (lv l) = 0 /\ - x (lv l) = 0)).
  { intros [E1 E2]. apply (vnz_sum l Hnz). split; lra. }
  destruct (cos_sin_atan2 (y (lv l)) (- x (lv l)) Hab) as [Hc Hs].
  rewrite Hc, Hs.
  replace (y (lv l) * y (lv l) + - x (lv l) * - x (lv l))
    with (x (lv l) * x (lv l) + y (lv l) * y (lv l)) by ring.
  reflexivity.
Qed.

(** X11. For a line of nonzero length and [da > 0], the arc built by
    [Line.tangeant(t, da, radius)] starts at [lerp(t)], its unit tangent there
    is the line's unit direction. *)
Theorem line_tangeant_ccw_continues (l : Line) (t da radius : R) :
  lv l <> vzero -> 0 < da ->
  arc_p0 (line_tangeant l t da radius) = line_lerp l t /\
  arc_tangeant_unit_vector (line_tangeant l t da radius) 0 = normalized (lv l).
Proof.
  intros Hnz Hda.
  pose proof (line_angle_normal_cos_sin l Hnz) as Hcs.
  destruct (line_unit_normal l Hnz) as (HL & HLL & _ & Hn & Hv).
  set (L := sqrt _) in *.
  assert (Hc : cos (line_angle_normal l) = y (lv l) / L) by (rewrite Hn in Hcs; injection Hcs; auto).
  assert (Hs : sin (line_angle_normal l) = - x (lv l) / L) by (rewrite Hn in Hcs; injection Hcs; auto).
  assert (Hu : arc_tangeant_unit_vector (line_tangeant l t da radius) 0 = normalized (lv l)).
  { unfold arc_tangeant_unit_vector, line_tangeant, arc. cbn [aa0 ada].
    rewrite Rmult_0_l, Rplus_0_r, Hc, Hs, Hv.
    destruct (Rlt_dec 0 da); [|lra]. unfold vneg; cbn [x y]. apply v2_eq; field; lra. }
  split; [|exact Hu].
  - unfold arc_p0, arc_lerp, line_tangeant, arc. cbn [ac ar aa0 ada].
    rewrite Rmult_0_l, Rplus_0_r, Hc, Hs, Hn.
    destruct (Rlt_dec da 0); [lra|].
    destruct l as [[px py] [vx vy]]. unfold line_lerp. simpl_model. apply v2_eq; field; lra.
Qed.

(** X12. For a line of nonzero length and [da < 0], the arc built by
    [Line.tangeant(t, da, radius)] starts at [lerp(t) + 2 radius n], [n] the
    unit right normal, and its unit tangent there is opposite to the line's
    direction. *)
Theorem line_tangeant_cw_start (l : Line) (t da radius : R) :
  lv l <> vzero -> da < 0 ->
  arc_p0 (line_tangeant l t da radius)
    = line_lerp l t +v ((2 * radius) *v normalized (cross_z l)) /\
  arc_tangeant_unit_vector (line_tangeant l t da radius) 0 = vneg (normalized (lv l)).
Proof.
  intros Hnz Hda.
  pose proof (line_angle_normal_cos_sin l Hnz) as Hcs.
  destruct (line_unit_normal l Hnz) as (HL & HLL & _ & Hn & Hv).
  set (L := sqrt _) in *.
  assert (Hc : cos (line_angle_normal l) = y (lv l) / L) by (rewrite Hn in Hcs; injection Hcs; auto).
  assert (Hs : sin (line_angle_normal l) = - x (lv l) / L) by (rewrite Hn in Hcs; injection Hcs; auto).
  split.
  - unfold arc_p0, arc_lerp, line_tangeant, arc. cbn [ac ar aa0 ada].
    rewrite Rmult_0_l, Rplus_0_r, Hc, Hs, Hn.
    destruct (Rlt_dec da 0); [|lra].
    destruct l as [[px py] [vx vy]]. unfold line_lerp. simpl_model. apply v2_eq; field; lra.
  - unfold arc_tangeant_unit_vector, line_tangeant, arc. cbn [aa0 ada].
    rewrite Rmult_0_l, Rplus_0_r, Hc, Hs, Hv.
    destruct (Rlt_dec 0 da); [lra|]. unfold vneg; cbn [x y]. apply v2_eq; field; lra.
Qed.

Lemma dlim_affine_trig (c r a0 da t : R) (g : R -> R) (g' : R -> R) :
  (forall u, derivable_pt_lim g u (g' u)) ->
  derivable_pt_lim (fun s => c + r * g (a0 + s * da)) t (r * (g' (a0 + t * da) * da)).
Proof.
  intros Hg.
  assert (Hlin : derivable_pt_lim (fun s => a0 + s * da) t da).
  { pose proof (derivable_pt_lim_plus _ _ t _ _ (derivable_pt_lim_const a0 t)
                  (derivable_pt_lim_scal id da t 1 (derivable_pt_lim_id t))) as H.
    replace (0 + da * 1) with da in H by ring.
    eapply derivable_pt_lim_ext; [|exact H].
    intros z. unfold plus_fct, fct_cte, mult_real_fct, id. ring. }
  pose proof (derivable_pt_lim_comp _ g t _ _ Hlin (Hg (a0 + t * da))) as Hc.
  pose proof (derivable_pt_lim_plus _ _ t _ _ (derivable_pt_lim_const c t)
                (derivable_pt_lim_scal _ r t _ Hc)) as H.
  replace (0 + r * (g' (a0 + t * da) * da)) with (r * (g' (a0 + t * da) * da)) in H by ring.
  eapply derivable_pt_lim_ext; [|exact H].
  intros z. unfold plus_fct, fct_cte, mult_real_fct, comp. reflexivity.
Qed.

(** X13. [Arc.lerp] moves along [tangeant_unit_vector] at speed
    [Arc.length]: the derivative of [lerp] at [t] is [length] times the unit
    tangent at [t]. *)
Theorem arc_lerp_velocity (a : Arc) (t : R) :
  derivable_pt_lim (fun s => x (arc_lerp a s)) t
    (arc_length a * x (arc_tangeant_unit_vector a t)) /\
  derivable_pt_lim (fun s => y (arc_lerp a s)) t
    (arc_length a * y (arc_tangeant_unit_vector a t)).
Proof.
  destruct a as [[cx cy] r r2 a0 da]. unfold arc_lerp, arc_length, arc_tangeant_unit_vector.
  simpl_model.
  split.
  - replace (r * Rabs da * _) with (r * (- sin (a0 + t * da) * da)).
    + apply (dlim_affine_trig cx r a0 da t cos (fun u => - sin u)).
      apply derivable_pt_lim_cos.
    + destruct (Rlt_dec 0 da); unfold vneg; cbn [x y].
      * rewrite Rabs_right by lra. ring.
      * destruct (Req_EM_T da 0) as [->|]; [rewrite Rabs_R0; ring|].
        rewrite Rabs_left by lra. ring.
  - replace (r * Rabs da * _) with (r * (cos (a0 + t * da) * da)).
    + apply (dlim_affine_trig cy r a0 da t sin cos). apply derivable_pt_lim_sin.
    + destruct (Rlt_dec 0 da); unfold vneg; cbn [x y].
      * rewrite Rabs_right by lra. ring.
      * destruct (Req_EM_T da 0) as [->|]; [rewrite Rabs_R0; ring|].
        rewrite Rabs_left by lra. ring.
Qed.

(** X14. [Arc.normal(t)] starts at [lerp(t)], is perpendicular to
    [tangeant_unit_vector(t)], has length [|r|], and its cross product with the
    tangent is [-r] (right side) when [da <> 0] but [r] (left side) when
    [da = 0]. *)
Theorem arc_normal_right_of_tangent (a : Arc) (t : R) :
  let n := lv (arc_normal a t) in
  let u := arc_tangeant_unit_vector a t in
  lp (arc_normal a t) = arc_lerp a t /\
  dot u n = 0 /\
  vlength n = Rabs (ar a) /\
  x u * y n - y u * x n = (if Req_EM_T (ada a) 0 then ar a else - ar a).
Proof.
  destruct a as [[cx cy] r r2 a0 da]. cbv zeta.
  unfold arc_normal, arc_tangeant_unit_vector, arc_lerp, dot.
  simpl_model.
  set (c := cos (a0 + t * da)). set (s := sin (a0 + t * da)).
  assert (Hcs : s * s + c * c = 1) by (pose proof (sin2_cos2 (a0 + t * da)) as H; unfold Rsqr in H; exact H).
  assert (Hlen : forall k, k * k = r * r -> vlength (mkV2 (k * c) (k * s)) = Rabs r).
  { intros k Hk. apply vlength_eval; [|apply Rabs_pos].
    rewrite <- Rabs_mult, Rabs_right by nra.
    transitivity (k * k * (s * s + c * c)); [ring|]. rewrite Hcs, Hk. ring. }
  destruct (Rlt_dec da 0) as [Hn|Hn]; destruct (Rlt_dec 0 da) as [Hp|Hp]; try lra;
    destruct (Req_EM_T da 0) as [Hz|Hz]; try lra; cbn [lp lv]; unfold vneg, vsub, vadd;
    cbn [x y]; (split; [reflexivity|]).
  - split; [ring|]. split.
    + rewrite <- (Hlen (- r)) by ring. f_equal; apply v2_eq; ring.
    + transitivity (- r * (s * s + c * c)); [ring|]. rewrite Hcs; ring.
  - split; [ring|]. split.
    + rewrite <- (Hlen r) by ring. f_equal; apply v2_eq; ring.
    + transitivity (- r * (s * s + c * c)); [ring|]. rewrite Hcs; ring.
  - split; [ring|]. split.
    + rewrite <- (Hlen r) by ring. f_equal; apply v2_eq; ring.
    + transitivity (r * (s * s + c * c)); [ring|]. rewrite Hcs; ring.
Qed.

(** X15. On an arc of positive radius and nonzero sweep,
    [point_sur_segment(lerp(t))] reports distance 0 and gives back [t] when the
    angle [a0 + t da] lies in (-pi, pi]. *)
Theorem arc_point_sur_segment_lerp (a : Arc) (t : R) :
  0 < ar a -> ada a <> 0 -> - PI < aa0 a + t * ada a <= PI ->
  arc_point_sur_segment a (arc_lerp a t) =
    Ok (if Rlt_dec 0 t then (if Rlt_dec t 1 then true else false) else false, 0, t).
Proof.
  destruct a as [[cx cy] r r2 a0 da]. cbn [ar ada aa0]. intros Hr Hda Hrange.
  unfold arc_point_sur_segment, arc_lerp. simpl_model.
  replace (cx + r * cos (a0 + t * da) - cx) with (r * cos (a0 + t * da)) by ring.
  replace (cy + r * sin (a0 + t * da) - cy) with (r * sin (a0 + t * da)) by ring.
  rewrite atan2_scale, atan2_sin_cos by assumption.
  rewrite pdiv_nz by exact Hda. cbn [bind].
  replace ((a0 + t * da - a0) / da) with t by (field; exact Hda).
  replace (vlength (mkV2 (r * cos (a0 + t * da)) (r * sin (a0 + t * da))) - r) with 0.
  - reflexivity.
  - rewrite (vlength_eval _ _ r); [ring | | lra].
    pose proof (sin2_cos2 (a0 + t * da)) as H. unfold Rsqr in H.
    transitivity (r * r * (sin (a0 + t * da) * sin (a0 + t * da) + cos (a0 + t * da) * cos (a0 + t * da)));
      [ring|]. rewrite H. ring.
Qed.

(** X16. [Arc.rotate(0)] keeps [r], [a0] and [da] but sets the centre
    to [p0 - c], so the start point becomes [2 (p0 - c)]. *)
Theorem arc_rotate_zero_moves_start (a : Arc) :
  ac (arc_rotate a 0) = arc_p0 a -v ac a /\
  ar (arc_rotate a 0) = ar a /\ aa0 (arc_rotate a 0) = aa0 a /\ ada (arc_rotate a 0) = ada a /\
  arc_p0 (arc_rotate a 0) = 2 *v (arc_p0 a -v ac a).
Proof.
  destruct a as [[cx cy] r r2 a0 da].
  unfold arc_rotate, arc_set_c, arc_p0, arc_lerp, mmul. rewrite cos_0, sin_0.
  simpl_model. cbn [m11 m12 m21 m22]. repeat split; try reflexivity; apply v2_eq; ring.
Qed.

(** X17. [proj_xy] with a next segment raises [ZeroDivisionError]
    when either segment has zero length. *)
Theorem proj_xy_zero_length_raises (s n : Seg) (t : R) :
  seg_length s = 0 \/ seg_length n = 0 -> proj_xy s t (Some n) = Err ZeroDivisionError.
Proof.
  intros H. unfold proj_xy, pdiv.
  destruct (Req_EM_T (seg_length s * seg_length n) 0) as [E|E]; [reflexivity|].
  exfalso. apply E. destruct H as [-> | ->]; ring.
Qed.

Lemma miter_size (c : R) :
  -1 < c <= 1 -> 0 < cos (0.5 * acos c) <= 1.
Proof.
  intros Hc. pose proof PI_RGT_0.
  assert (Ha : 0 <= acos c < PI).
  { destruct (Req_EM_T c 1) as [->|Hne].
    - rewrite acos_1. lra.
    - destruct (acos_bound_lt c) as [H1 H2]; lra. }
  split.
  - apply cos_gt_0; lra.
  - apply COS_bound.
Qed.

(** X18. For two lines of nonzero length whose unit right normals are
    not opposite, [proj_xy] returns a size of at least 1. *)
Theorem proj_xy_lines_size (l n : Line) (t : R) :
  lv l <> vzero -> lv n <> vzero ->
  -1 < dot (normalized (cross_z l)) (normalized (cross_z n)) ->
  exists dir size, proj_xy (SLine l) t (Some (SLine n)) = Ok (dir, size) /\ 1 <= size.
Proof.
  intros Hl Hn Hdot.
  destruct (line_unit_normal l Hl) as (HL0 & _ & Hlen0 & _ & _).
  destruct (line_unit_normal n Hn) as (HL1 & _ & Hlen1 & _ & _).
  unfold proj_xy, seg_normal, seg_length, line_normal. cbn [lv].
  rewrite Hlen0, Hlen1 in *.
  set (L0 := sqrt (x (lv l) * _ + _)) in *.
  set (L1 := sqrt (x (lv n) * _ + _)) in *.
  set (v0 := normalized (cross_z l)) in *. set (v1 := normalized (cross_z n)) in *.
  rewrite pdiv_nz by nra. rewrite bind_Ok.
  replace (dot (L0 *v v0) (L1 *v v1) / (L0 * L1)) with (dot v0 v1)
    by (unfold dot, vscale; cbn [x y]; field; lra).
  set (c := Rmin 1 (Rmax (-1) (dot v0 v1))).
  assert (Hc : -1 < c <= 1).
  { unfold c, Rmin, Rmax.
    destruct (Rle_dec (-1) (dot v0 v1)); destruct (Rle_dec 1 _); lra. }
  destruct (miter_size c Hc) as [Hpos Hle].
  rewrite pdiv_nz by lra. rewrite bind_Ok.
  eexists; eexists; split; [reflexivity|].
  replace (1 / cos (0.5 * acos c)) with (1 + (1 - cos (0.5 * acos c)) / cos (0.5 * acos c))
    by (field; lra).
  assert (0 <= (1 - cos (0.5 * acos c)) / cos (0.5 * acos c))
    by (unfold Rdiv; apply Rmult_le_pos; [lra | left; apply Rinv_0_lt_compat; lra]).
  lra.
Qed.

(** X19. When the next line continues in the same direction,
    [proj_xy] returns the unit right normal and size 1. *)
Theorem proj_xy_lines_straight (l n : Line) (t k : R) :
  lv l <> vzero -> 0 < k -> lv n = k *v lv l ->
  proj_xy (SLine l) t (Some (SLine n)) = Ok (normalized (cross_z l), 1).
Proof.
  intros Hl Hk Hv.
  assert (Hn : lv n <> vzero).
  { rewrite Hv. intros E. apply (vnz_sum l Hl). unfold vscale, vzero in E.
    injection E as E1 E2. split; nra. }
  destruct (line_unit_normal l Hl) as (HL0 & HLL0 & Hlen0 & Hn0 & _).
  destruct (line_unit_normal n Hn) as (HL1 & HLL1 & Hlen1 & Hn1 & _).
  set (L0 := sqrt (x (lv l) * _ + _)) in *.
  set (L1 := sqrt (x (lv n) * _ + _)) in *.
  assert (EL : L1 = k * L0).
  { unfold L1. rewrite Hv. unfold vscale; cbn [x y]. apply sqrt_sq_eq; [|nra].
    transitivity (k * k * (L0 * L0)); [rewrite HLL0; ring | ring]. }
  assert (En : normalized (cross_z n) = normalized (cross_z l)).
  { rewrite Hn1, Hn0, EL, Hv. unfold vscale; cbn [x y]. apply v2_eq; field; lra. }
  set (a := y (lv l) / L0) in *. set (b := - x (lv l) / L0) in *.
  assert (Hab : a * a + b * b = 1).
  { unfold a, b. transitivity ((x (lv l) * x (lv l) + y (lv l) * y (lv l)) / (L0 * L0));
      [field; lra | rewrite <- HLL0; field; lra]. }
  unfold proj_xy, seg_normal, seg_length, line_normal. cbn [lv].
  rewrite En, Hn0, Hlen0, Hlen1.
  rewrite pdiv_nz by nra. rewrite bind_Ok.
  replace (dot (L0 *v mkV2 a b) (L1 *v mkV2 a b) / (L0 * L1)) with 1
    by (unfold dot, vscale; cbn [x y];
        transitivity ((a * a + b * b) * (L0 * L1) / (L0 * L1)); [rewrite Hab; field; nra | field; nra]).
  replace (Rmin 1 (Rmax (-1) 1)) with 1
    by (unfold Rmin, Rmax; destruct (Rle_dec (-1) 1); destruct (Rle_dec 1 1); lra).
  rewrite acos_1. replace (0.5 * 0) with 0 by ring. rewrite cos_0.
  rewrite pdiv_nz by lra. rewrite bind_Ok.
  unfold vadd; cbn [x y].
  rewrite (normalized_eval (a + a) (b + b) 2); [| nra | lra].
  f_equal. f_equal; [apply v2_eq; field | field].
Qed.

(** X20. With the default [z_axis], the [xy] part of [Line3d.offset]
    is the 2d [Line.offset] of the [xy] part; the height of [p] and [v] are kept. *)
Theorem line3d_offset_xy (l : Line3d) (o : R) :
  z_axis l = mkV3 0 0 1 ->
  line3d_to_2d (line3d_offset l o) = line_offset (line3d_to_2d l) o /\
  z3 (lp3 (line3d_offset l o)) = z3 (lp3 l) /\
  lv3 (line3d_offset l o) = lv3 l.
Proof.
  destruct l as [[px py pz] [vx vy vz] za]. cbn [z_axis]. intros ->.
  unfold line3d_offset, line3d_cross, line3d, line3d_to_2d, line_offset, cross_z,
    normalized3, normalized, vlength3, vlength, dot, vcross3.
  cbn [lp3 lv3 z_axis x3 y3 z3 lp lv x y].
  replace ((vy * 1 - vz * 0) * (vy * 1 - vz * 0) + (vz * 0 - vx * 1) * (vz * 0 - vx * 1) +
           (vx * 0 - vy * 0) * (vx * 0 - vy * 0))
    with (vy * vy + - vx * - vx) by ring.
  destruct (Req_EM_T (sqrt (vy * vy + - vx * - vx)) 0) as [E|E].
  - unfold vadd3, vscale3, vadd, vscale; cbn [x3 y3 z3 x y].
    repeat split; struct_eq; ring.
  - unfold vadd3, vscale3, vadd, vscale; cbn [x3 y3 z3 x y].
    repeat split; struct_eq; field; exact E.
Qed.

Lemma line_point_sur_segment_param (l : Line) (pt : V2) :
  0 < dot (lv l) (lv l) ->
  exists b d, line_point_sur_segment l pt
              = Ok (b, d, dot (lv l) (pt -v lp l) / dot (lv l) (lv l)).
Proof.
  intros HA. unfold line_point_sur_segment.
  assert (HL : 0 < line_length l) by (unfold line_length, vlength; apply sqrt_lt_R0; exact HA).
  assert (HLL : line_length l * line_length l = dot (lv l) (lv l))
    by (unfold line_length, vlength; apply sqrt_sqrt; lra).
  rewrite !pdiv_nz by nra. cbn [bind]. rewrite HLL.
  eexists; eexists; reflexivity.
Qed.

(** X21. For a line with [0 < A = v.v], when [A <= 1e-7] or the
    discriminant is negative, [Circle.intersect] reports [False] with the
    parameter [t = v.(c - p) / v.v] given by [Line.point_sur_segment] and the
    point [line.lerp(t)], the foot of the perpendicular from the center. *)
Theorem circle_intersect_fallback (c : Circle) (l : Line) :
  let v := lp l -v cc c in
  let A := dot (lv l) (lv l) in
  let B := dot (2 *v v) (lv l) in
  let C := dot v v - cr2 c in
  let t := dot (lv l) (cc c -v lp l) / A in
  0 < A -> (A <= 1 / 10000000 \/ B * B - 4 * A * C < 0) ->
  circle_intersect c l = Ok (false, line_lerp l t, t) /\
  dot (lv l) (line_lerp l t -v cc c) = 0.
Proof.
  intros v A B C t HA Hcase. split.
  - destruct (line_point_sur_segment_param l (cc c) HA) as (b & d & Hp).
    unfold circle_intersect. cbv zeta. fold v A B C.
    destruct (Rle_dec A (1 / 10000000)) as [H1|H1].
    + rewrite Hp. reflexivity.
    + destruct (Rlt_dec (B * B - 4 * A * C) 0) as [H2|H2]; [|lra].
      rewrite Hp. reflexivity.
  - unfold t, A in *. destruct l as [[px py] [vx vy]], c as [[cx cy] r r2].
    unfold line_lerp, dot in *. simpl_model. field. lra.
Qed.

(** ** Instances of the properties above *)

Lemma e1_nz : mkV2 1 0 <> vzero.
Proof. unfold vzero. intros E. injection E. intros. lra. Qed.

Lemma line_intersect_on_both_lines_witness :
  line_intersect (mkLine (mkV2 0 0) (mkV2 2 0)) (mkLine (mkV2 1 (-1)) (mkV2 0 2))
    = Ok (true, mkV2 1 0, 1 / 2) /\
  exists s, mkV2 1 0 = line_lerp (mkLine (mkV2 1 (-1)) (mkV2 0 2)) s.
Proof.
  assert (E : line_intersect (mkLine (mkV2 0 0) (mkV2 2 0)) (mkLine (mkV2 1 (-1)) (mkV2 0 2))
              = Ok (true, mkV2 1 0, 1 / 2)).
  { unfold line_intersect, cross_z, dot. simpl_model. decide_cmp.
    rewrite pdiv_nz by lra. cbn [bind]. unfold line_lerp. struct_eq; field. }
  split; [exact E|].
  exact (proj2 (proj2 (line_intersect_on_both_lines _ _) _ _ E)).
Defined.

Lemma line_point_sur_segment_lerp_witness :
  mkV2 1 0 <> vzero /\
  line_point_sur_segment (mkLine (mkV2 0 0) (mkV2 1 0))
    (line_lerp (mkLine (mkV2 0 0) (mkV2 1 0)) (1 / 2)
       +v (3 *v normalized (cross_z (mkLine (mkV2 0 0) (mkV2 1 0)))))
  = Ok (true, -3, 1 / 2).
Proof.
  split; [exact e1_nz|].
  rewrite (line_point_sur_segment_lerp (mkLine (mkV2 0 0) (mkV2 1 0)) (1 / 2) 3 e1_nz).
  decide_cmp. reflexivity.
Defined.

Lemma line_sized_normal_right_witness :
  mkV2 1 0 <> vzero /\
  line_length (line_sized_normal (mkLine (mkV2 0 0) (mkV2 1 0)) (1 / 2) (-2)) = Rabs (-2).
Proof.
  split; [exact e1_nz|].
  exact (proj1 (proj2 (proj2
    (line_sized_normal_right (mkLine (mkV2 0 0) (mkV2 1 0)) (1 / 2) (-2) e1_nz)))).
Defined.

Lemma line_steps_at_least_one_witness :
  2 <> 0 /\
  exists dt n, line_steps (mkLine (mkV2 0 0) (mkV2 3 0)) 2 = Ok (dt, n) /\
    (1 <= n)%Z /\ dt * IZR n = 1.
Proof.
  split; [lra|].
  destruct (proj2 (line_steps_at_least_one (mkLine (mkV2 0 0) (mkV2 3 0)) 2) ltac:(lra))
    as (dt & n & E & H1 & H2 & _).
  exists dt, n. split; [exact E|]. split; assumption.
Defined.

Lemma arc_steps_at_least_one_witness :
  1 <> 0 /\
  exists dt n, arc_steps_by_angle (arc (mkV2 0 0) 1 0 PI) 1 = Ok (dt, n) /\
    (1 <= n)%Z /\ dt * IZR n = 1.
Proof.
  split; [lra|].
  destruct (proj2 (proj2 (proj2 (arc_steps_at_least_one (arc (mkV2 0 0) 1 0 PI) 1 1)))
              ltac:(lra)) as (dt & n & E & H1 & H2 & _).
  exists dt, n. split; [exact E|]. split; assumption.
Defined.

Lemma line_scale_sets_length_witness :
  mkV2 3 4 <> vzero /\
  line_length (line_scale (mkLine (mkV2 0 0) (mkV2 3 4)) (-2)) = Rabs (-2).
Proof.
  assert (H : mkV2 3 4 <> vzero) by (unfold vzero; intros E; injection E; intros; lra).
  split; [exact H|].
  exact (proj1 (proj2 (proj2 (line_scale_sets_length (mkLine (mkV2 0 0) (mkV2 3 4)) (-2)))) H).
Defined.

Lemma line_tangeant_ccw_continues_witness :
  mkV2 1 0 <> vzero /\ 0 < PI / 2 /\
  arc_p0 (line_tangeant (mkLine (mkV2 0 0) (mkV2 1 0)) 1 (PI / 2) 1)
    = line_lerp (mkLine (mkV2 0 0) (mkV2 1 0)) 1.
Proof.
  assert (Hpi : 0 < PI / 2) by (pose proof PI_RGT_0; lra).
  split; [exact e1_nz|]. split; [exact Hpi|].
  exact (proj1 (line_tangeant_ccw_continues (mkLine (mkV2 0 0) (mkV2 1 0)) 1 (PI / 2) 1
                  e1_nz Hpi)).
Defined.

Lemma line_tangeant_cw_start_witness :
  mkV2 1 0 <> vzero /\ - (PI / 2) < 0 /\
  arc_p0 (line_tangeant (mkLine (mkV2 0 0) (mkV2 1 0)) 1 (- (PI / 2)) 1)
    = line_lerp (mkLine (mkV2 0 0) (mkV2 1 0)) 1
      +v ((2 * 1) *v normalized (cross_z (mkLine (mkV2 0 0) (mkV2 1 0)))).
Proof.
  assert (Hpi : - (PI / 2) < 0) by (pose proof PI_RGT_0; lra).
  split; [exact e1_nz|]. split; [exact Hpi|].
  exact (proj1 (line_tangeant_cw_start (mkLine (mkV2 0 0) (mkV2 1 0)) 1 (- (PI / 2)) 1
                  e1_nz Hpi)).
Defined.

Lemma arc_point_sur_segment_lerp_witness :
  0 < 1 /\ PI / 2 <> 0 /\ - PI < 0 + 1 / 2 * (PI / 2) <= PI /\
  arc_point_sur_segment (arc (mkV2 0 0) 1 0 (PI / 2)) (arc_lerp (arc (mkV2 0 0) 1 0 (PI / 2)) (1 / 2))
    = Ok (true, 0, 1 / 2).
Proof.
  pose proof PI_RGT_0.
  assert (H1 : 0 < 1) by lra.
  assert (H2 : PI / 2 <> 0) by lra.
  assert (H3 : - PI < 0 + 1 / 2 * (PI / 2) <= PI) by lra.
  split; [exact H1|]. split; [exact H2|]. split; [exact H3|].
  rewrite (arc_point_sur_segment_lerp (arc (mkV2 0 0) 1 0 (PI / 2)) (1 / 2) H1 H2 H3).
  decide_cmp. reflexivity.
Defined.

Lemma proj_xy_zero_length_raises_witness :
  seg_length (SLine (mkLine (mkV2 0 0) (mkV2 0 0))) = 0 /\
  proj_xy (SLine (mkLine (mkV2 0 0) (mkV2 0 0))) 0 (Some (SLine (mkLine (mkV2 0 0) (mkV2 1 0))))
    = Err ZeroDivisionError.
Proof.
  assert (H : seg_length (SLine (mkLine (mkV2 0 0) (mkV2 0 0))) = 0).
  { unfold seg_length, line_length, vlength, dot. cbn [lv x y].
    replace (0 * 0 + 0 * 0) with 0 by ring. apply sqrt_0. }
  split; [exact H|].
  exact (proj_xy_zero_length_raises _ _ 0 (or_introl H)).
Defined.

Lemma proj_xy_lines_size_witness :
  -1 < dot (normalized (cross_z (mkLine (mkV2 0 0) (mkV2 1 0))))
           (normalized (cross_z (mkLine (mkV2 1 0) (mkV2 0 1)))) /\
  exists dir size,
    proj_xy (SLine (mkLine (mkV2 0 0) (mkV2 1 0))) 0 (Some (SLine (mkLine (mkV2 1 0) (mkV2 0 1))))
      = Ok (dir, size) /\ 1 <= size.
Proof.
  assert (Hd : -1 < dot (normalized (cross_z (mkLine (mkV2 0 0) (mkV2 1 0))))
                        (normalized (cross_z (mkLine (mkV2 1 0) (mkV2 0 1))))).
  { unfold cross_z. cbn [lv x y].
    rewrite !normalized_unit by lra. unfold dot; cbn [x y]. lra. }
  assert (H2 : mkV2 0 1 <> vzero) by (unfold vzero; intros E; injection E; intros; lra).
  split; [exact Hd|].
  exact (proj_xy_lines_size (mkLine (mkV2 0 0) (mkV2 1 0)) (mkLine (mkV2 1 0) (mkV2 0 1)) 0
           e1_nz H2 Hd).
Defined.

Lemma proj_xy_lines_straight_witness :
  mkV2 2 0 = 2 *v mkV2 1 0 /\
  proj_xy (SLine (mkLine (mkV2 0 0) (mkV2 1 0))) 0 (Some (SLine (mkLine (mkV2 1 0) (mkV2 2 0))))
    = Ok (normalized (cross_z (mkLine (mkV2 0 0) (mkV2 1 0))), 1).
Proof.
  assert (Hk : 0 < 2) by lra.
  assert (Hv : mkV2 2 0 = 2 *v mkV2 1 0) by (unfold vscale; cbn [x y]; apply v2_eq; ring).
  split; [exact Hv|].
  exact (proj_xy_lines_straight (mkLine (mkV2 0 0) (mkV2 1 0)) (mkLine (mkV2 1 0) (mkV2 2 0))
           0 2 e1_nz Hk Hv).
Defined.

Lemma line3d_offset_xy_witness :
  line3d_to_2d (line3d_offset (mkLine3d (mkV3 0 0 5) (mkV3 1 0 2) (mkV3 0 0 1)) 1)
    = line_offset (line3d_to_2d (mkLine3d (mkV3 0 0 5) (mkV3 1 0 2) (mkV3 0 0 1))) 1.
Proof.
  exact (proj1 (line3d_offset_xy (mkLine3d (mkV3 0 0 5) (mkV3 1 0 2) (mkV3 0 0 1)) 1 eq_refl)).
Defined.

Lemma circle_intersect_fallback_witness :
  let c := circle (mkV2 0 0) 5 in
  let l := mkLine (mkV2 (-10) 6) (mkV2 1 0) in
  let v := lp l -v cc c in
  let A := dot (lv l) (lv l) in
  let B := dot (2 *v v) (lv l) in
  let C := dot v v - cr2 c in
  let t := dot (lv l) (cc c -v lp l) / A in
  0 < A /\ (A <= 1 / 10000000 \/ B * B - 4 * A * C < 0) /\
  circle_intersect c l = Ok (false, line_lerp l t, t).
Proof.
  intros c l v A B C t.
  assert (HA : 0 < A) by (unfold A, l, dot; simpl_model; lra).
  assert (Hd : A <= 1 / 10000000 \/ B * B - 4 * A * C < 0).
  { right. unfold A, B, C, v, l, c, circle, dot; simpl_model; lra. }
  split; [exact HA|]. split; [exact Hd|].
  exact (proj1 (circle_intersect_fallback c l HA Hd)).
Defined.
